(** * Jordy C BBQ Cup: the tournament engine of [src/src/App.jsx]

    A shallow embedding of the engine functions of the single-file React
    application (scheduler, scoring validator, standings calculator,
    knockout builder, round advancement, podium resolver) together with
    the handlers of the main component that drive them, and the
    properties the specification states about them.

    Conventions of the embedding:
    - a JavaScript value that may be [undefined] (or [null]) is an
      [option]; [None] is the absent value;
    - scores and table statistics are integers ([Z]); the one place
      where the source can produce [NaN] (adding an absent score) is
      modelled by the type [num];
    - player ids and group names are strings, compared byte-wise;
    - an object used as a map ([row], [playersIndex], [advancers]) is a
      finite map over its own properties: a key that is no own property
      reads [undefined].  Keys that name a property inherited from
      [Object.prototype] ([inheritedKeys]) without being own properties
      are outside the embedding;
    - [uid()] draws from a supply of fresh tokens: every function that
      calls it takes the next free token and the callers thread the
      supply through the application state. *)

From stdpp Require Import gmap strings list sorting pretty.
From Stdlib Require Import ZArith Lia.
From Stdlib Require OrderedTypeEx.

Set Default Proof Using "Type".

(* ================================================================== *)
(** * Data model *)
(* ================================================================== *)

(** [{ id: string, name: string, seed: number }] *)
Record Player := mkPlayer {
  p_id : string;
  p_name : string;
  p_seed : Z
}.

(** [{ id, a, b, scoreA?, scoreB?, completed? }].  The ids of the two
    participants are read from arrays by index, so either may be
    [undefined]. *)
Record Match := mkMatch {
  m_id : nat;
  m_a : option string;
  m_b : option string;
  scoreA : option Z;
  scoreB : option Z;
  completed : option bool
}.

(** [{ name, players, matches }] *)
Record Group := mkGroup {
  g_name : string;
  g_players : list string;
  g_matches : list Match
}.

Inductive Mode := ModeGroups | ModeSingle.
Inductive Stage := StSetup | StGroups | StKnockout | StChampion.

#[global] Instance Player_eq_dec : EqDecision Player.
Proof. solve_decision. Defined.
#[global] Instance Match_eq_dec : EqDecision Match.
Proof. solve_decision. Defined.
#[global] Instance Mode_eq_dec : EqDecision Mode.
Proof. solve_decision. Defined.
#[global] Instance Stage_eq_dec : EqDecision Stage.
Proof. solve_decision. Defined.

(** Truthiness of [m.completed]. *)
Definition is_completed (m : Match) : bool :=
  match completed m with Some true => true | _ => false end.

(** The object literal [{ id: uid(), a: x, b: y }]: no score fields and
    no [completed] field. *)
Definition freshMatch (i : nat) (x y : option string) : Match :=
  mkMatch i x y None None None.

(** [{ ...matchWithScores, completed: true }] *)
Definition markCompleted (m : Match) : Match :=
  mkMatch (m_id m) (m_a m) (m_b m) (scoreA m) (scoreB m) (Some true).

(** [m.scoreA > m.scoreB]: a comparison with [undefined] is false. *)
Definition scoreA_gt_scoreB (m : Match) : bool :=
  match scoreA m, scoreB m with
  | Some x, Some y => bool_decide (y < x)%Z
  | _, _ => false
  end.

(* ================================================================== *)
(** * Scoring validation *)
(* ================================================================== *)

Definition msgMissing : string := "Enter both scores".
Definition msgDraw : string := "No draws in cornhole".
Definition msgWinner (target : Z) : string :=
  "Winner must have exactly " +:+ pretty target.
Definition msgLoser (target : Z) : string :=
  "Loser must be below " +:+ pretty target.

(** [validateCornholeScore(sa, sb, target)]; [None] is [null]. *)
Definition validateCornholeScore (sa sb : option Z) (target : Z)
  : option string :=
  match sa, sb with
  | Some x, Some y =>
      if bool_decide (x = y) then Some msgDraw
      else
        let max := Z.max x y in
        let min := Z.min x y in
        if bool_decide (max ≠ target) then Some (msgWinner target)
        else if bool_decide (target ≤ min)%Z then Some (msgLoser target)
        else None
  | _, _ => Some msgMissing
  end.

(* ================================================================== *)
(** * Scheduler *)
(* ================================================================== *)

(** [scheduleRoundRobin4(ids)]: [const [A, B, C, D] = ids] reads the
    first four positions (absent ones are [undefined]); the six [uid()]
    calls take the tokens [fresh], ..., [fresh + 5]. *)
Definition scheduleRoundRobin4 (fresh : nat) (ids : list string)
  : list Match :=
  let A := ids !! 0 in
  let B := ids !! 1 in
  let C := ids !! 2 in
  let D := ids !! 3 in
  [ freshMatch fresh A B;
    freshMatch (fresh + 1) A C;
    freshMatch (fresh + 2) A D;
    freshMatch (fresh + 3) B C;
    freshMatch (fresh + 4) B D;
    freshMatch (fresh + 5) C D ].

(** The two participants of a match, in the order the match holds them. *)
Definition participants (m : Match) : option string * option string :=
  (m_a m, m_b m).

(** [m] is the match between [x] and [y], in either order. *)
Definition meets (x y : string) (m : Match) : Prop :=
  (m_a m = Some x ∧ m_b m = Some y) ∨ (m_a m = Some y ∧ m_b m = Some x).

#[global] Instance meets_dec x y m : Decision (meets x y m).
Proof. unfold meets. apply _. Defined.

(** A match as the scheduler and the knockout builder create it. *)
Definition unplayed (m : Match) : Prop :=
  scoreA m = None ∧ scoreB m = None ∧ completed m = None ∧
  is_completed m = false.

(* ================================================================== *)
(** * Standings *)
(* ================================================================== *)

(** A JavaScript number as the standings table can hold it: an integer,
    or [NaN] once an absent score has been added to a total. *)
Inductive num := Int (z : Z) | NaN.

Definition num_add (x y : num) : num :=
  match x, y with Int p, Int q => Int (p + q) | _, _ => NaN end.

Definition num_sub (x y : num) : num :=
  match x, y with Int p, Int q => Int (p - q) | _, _ => NaN end.

(** A score read in an arithmetic context: [undefined] becomes [NaN]. *)
Definition of_score (s : option Z) : num :=
  match s with Some z => Int z | None => NaN end.

(** [x || rest] on numbers: [0] and [NaN] are falsy. *)
Definition num_or (x rest : num) : num :=
  match x with
  | Int 0 | NaN => rest
  | Int _ => x
  end.

(** One row of the table: [{ id, name, P, W, L, PF, PA, PD, Pts }]. *)
Record Row := mkRow {
  r_id : string;
  r_name : string;
  P : Z;
  W : Z;
  L : Z;
  PF : num;
  PA : num;
  PD : num;
  Pts : Z
}.

(** [playersIndex[pid]?.name || "?"]: the empty name is falsy. *)
Definition playerName (playersIndex : gmap string Player) (pid : string)
  : string :=
  match playersIndex !! pid with
  | Some p => if bool_decide (p_name p = "") then "?" else p_name p
  | None => "?"
  end.

(** [group.players.map((pid) => ({ id: pid, name: ..., P: 0, ... }))] *)
Definition initialTable (playersIndex : gmap string Player)
    (players : list string) : list Row :=
  (λ pid, mkRow pid (playerName playersIndex pid)
                0 0 0 (Int 0) (Int 0) (Int 0) 0) <$> players.

(** [Object.fromEntries]: a later entry with the same key replaces an
    earlier one. *)
Definition fromEntries {V : Type} (es : list (string * V)) : gmap string V :=
  foldl (λ acc e, <[e.1 := e.2]> acc) ∅ es.

(** The row objects are shared between [table] and [row] and mutated in
    place.  The store of row objects is the list [table] itself; a
    reference to a row object is its position in that list, and [row]
    maps an id to the reference of the (last) row that carries it. *)
Definition rowIndex (table : list Row) : gmap string nat :=
  fromEntries (imap (λ i r, (r_id r, i)) table).

(** The property key of [row[m.a]]: an [undefined] id reads the
    property named "undefined". *)
Definition propKey (o : option string) : string := default "undefined" o.

(** [r.P++] *)
Definition incP (r : Row) : Row :=
  mkRow (r_id r) (r_name r) (P r + 1) (W r) (L r) (PF r) (PA r) (PD r) (Pts r).

(** [r.PF += own; r.PA += opp; r.PD = r.PF - r.PA] *)
Definition addScores (own opp : num) (r : Row) : Row :=
  let pf := num_add (PF r) own in
  let pa := num_add (PA r) opp in
  mkRow (r_id r) (r_name r) (P r) (W r) (L r) pf pa (num_sub pf pa) (Pts r).

(** [r.W++] *)
Definition incW (r : Row) : Row :=
  mkRow (r_id r) (r_name r) (P r) (W r + 1) (L r) (PF r) (PA r) (PD r) (Pts r).

(** [r.L++] *)
Definition incL (r : Row) : Row :=
  mkRow (r_id r) (r_name r) (P r) (W r) (L r + 1) (PF r) (PA r) (PD r) (Pts r).

(** [r.Pts += 3] *)
Definition addPts3 (r : Row) : Row :=
  mkRow (r_id r) (r_name r) (P r) (W r) (L r) (PF r) (PA r) (PD r) (Pts r + 3).

(** The body of the loop over [group.matches], on the store [st].
    [None] is the [TypeError] raised when [row[m.a]] or [row[m.b]] is
    [undefined].  The statements are applied in source order, each to
    the current content of the referenced row, so a match whose two
    sides name the same row updates that row twice. *)
Definition playMatch (row : gmap string nat) (st : list Row) (m : Match)
  : option (list Row) :=
  if is_completed m then
    ia ← row !! propKey (m_a m);
    ib ← row !! propKey (m_b m);
    let sA := of_score (scoreA m) in
    let sB := of_score (scoreB m) in
    let st := alter incP ia st in
    let st := alter incP ib st in
    let st := alter (addScores sA sB) ia st in
    let st := alter (addScores sB sA) ib st in
    Some (if scoreA_gt_scoreB m
          then alter addPts3 ia (alter incL ib (alter incW ia st))
          else alter addPts3 ib (alter incL ia (alter incW ib st)))
  else Some st.

(** [for (const m of group.matches) { ... }] *)
Fixpoint playAll (row : gmap string nat) (st : list Row) (ms : list Match)
  : option (list Row) :=
  match ms with
  | [] => Some st
  | m :: ms' => st' ← playMatch row st m; playAll row st' ms'
  end.

(** [Array.prototype.sort] is stable; for a comparator that is a
    consistent ordering its result is the one stable sorted arrangement,
    computed here by stable insertion.  [cmp x y ≤ 0] keeps [x] before
    [y]. *)
Fixpoint insertBy {A : Type} (cmp : A → A → Z) (x : A) (l : list A) : list A :=
  match l with
  | [] => [x]
  | y :: l' =>
      if bool_decide (cmp x y ≤ 0)%Z then x :: y :: l'
      else y :: insertBy cmp x l'
  end.

Definition sortBy {A : Type} (cmp : A → A → Z) (l : list A) : list A :=
  foldr (insertBy cmp) [] l.

(** The value [sort] makes of a comparator result: [NaN] counts as 0. *)
Definition comparatorValue (n : num) : Z :=
  match n with Int z => z | NaN => 0%Z end.

Section Standings.

(** [String.prototype.localeCompare] is the host's collation; it is
    not part of the repository and is taken as a parameter. *)
Variable localeCompare : string → string → Z.

(** [y.Pts - x.Pts || y.PD - x.PD || y.PF - x.PF ||
     x.name.localeCompare(y.name)] *)
Definition compareRows (x y : Row) : num :=
  num_or (Int (Pts y - Pts x))
    (num_or (num_sub (PD y) (PD x))
       (num_or (num_sub (PF y) (PF x))
          (Int (localeCompare (r_name x) (r_name y))))).

(** [computeStandings(group, playersIndex)]; [None] is a [TypeError]. *)
Definition computeStandings (group : Group)
    (playersIndex : gmap string Player) : option (list Row) :=
  let table := initialTable playersIndex (g_players group) in
  let row := rowIndex table in
  st ← playAll row table (g_matches group);
  Some (sortBy (λ x y, comparatorValue (compareRows x y)) st).

End Standings.

(** Byte-wise comparison of strings, a collation used to run the
    standings on concrete tables. *)
Definition byteCompare (s t : string) : Z :=
  match String.compare s t with Lt => (-1)%Z | Eq => 0%Z | Gt => 1%Z end.

(* ================================================================== *)
(** * Knockout builder *)
(* ================================================================== *)

(** Truthiness of a player id: [undefined] and the empty string are
    falsy. *)
Definition truthyId (o : option string) : bool :=
  match o with
  | Some s => negb (bool_decide (s = ""))
  | None => false
  end.

(** [if (w && r) pairings.push({ id: uid(), a: w, b: r })]: the pushed
    matches, none or one. *)
Definition pushPairing (fresh : nat) (w r : option string) : list Match :=
  if truthyId w && truthyId r then [freshMatch fresh w r] else [].

(** The loop [for (let i = 0; i < order.length; i += 2)] of
    [buildKnockout].  [if (!g2) break] leaves the loop when [order[i+1]]
    is [undefined] or the empty string.  [None] is the [TypeError] of
    destructuring an absent [advancers] entry. *)
Fixpoint pairGroups (advancers : gmap string (option string * option string))
    (fresh : nat) (order : list string) : option (list Match) :=
  match order with
  | g1 :: g2 :: rest =>
      if bool_decide (g2 = "") then Some []
      else
        adv1 ← advancers !! g1;
        adv2 ← advancers !! g2;
        let m1 := pushPairing fresh adv1.1 adv2.2 in
        let m2 := pushPairing (fresh + length m1) adv2.1 adv1.2 in
        tl ← pairGroups advancers (fresh + length m1 + length m2) rest;
        Some (m1 ++ m2 ++ tl)
  | _ => Some []
  end.

Section KnockoutBuilder.

Variable localeCompare : string → string → Z.

(** [for (const g of groups) { advancers[g.name] = [table[0]?.id,
    table[1]?.id] }], started from the object [adv]. *)
Fixpoint collectAdvancers (playersIndex : gmap string Player)
    (adv : gmap string (option string * option string))
    (groups : list Group)
  : option (gmap string (option string * option string)) :=
  match groups with
  | [] => Some adv
  | g :: gs =>
      table ← computeStandings localeCompare g playersIndex;
      collectAdvancers playersIndex
        (<[g_name g := (r_id <$> table !! 0, r_id <$> table !! 1)]> adv) gs
  end.

(** [buildKnockout(groups, playersIndex)].  [.sort()] without a
    comparator orders the names as strings. *)
Definition buildKnockout (fresh : nat) (groups : list Group)
    (playersIndex : gmap string Player) : option (list Match) :=
  let order := sortBy byteCompare (g_name <$> groups) in
  advancers ← collectAdvancers playersIndex ∅ groups;
  pairGroups advancers fresh order.

End KnockoutBuilder.

(* ================================================================== *)
(** * Single-elimination helpers *)
(* ================================================================== *)

(** [chunk(arr, size)]: a slice is taken at every index that is a
    multiple of [size] ([i % 0] is [NaN], which is falsy). *)
Definition chunk {A : Type} (arr : list A) (size : nat) : list (list A) :=
  foldl (λ acc i,
           if bool_decide (size ≠ 0 ∧ i mod size ≠ 0) then acc
           else acc ++ [take size (drop i arr)])
        [] (seq 0 (length arr)).

(** [[a[i], a[j]] = [a[j], a[i]]] *)
Definition swap {A : Type} (a : list A) (i j : nat) : list A :=
  match a !! i, a !! j with
  | Some x, Some y => <[j := x]> (<[i := y]> a)
  | _, _ => a
  end.

(** The loop of [shuffle], from index [i] down to 1.  The [k]-th call
    of [Math.random] is the draw [rand k]; [Math.floor(Math.random() *
    (i + 1))] is that draw reduced to the range [0..i]. *)
Fixpoint shuffleLoop {A : Type} (rand : nat → nat) (k i : nat) (a : list A)
  : list A :=
  match i with
  | 0 => a
  | S i' => shuffleLoop rand (S k) i' (swap a i (rand k mod (i + 1)))
  end.

(** [shuffle(arr)], its draws starting at call number [k]. *)
Definition shuffle {A : Type} (rand : nat → nat) (k : nat) (arr : list A)
  : list A :=
  shuffleLoop rand k (length arr - 1) arr.

(** [ToInt32]: the signed 32-bit integer to which the bitwise operators
    convert an (integral) operand. *)
Definition toInt32 (n : Z) : Z := ((n + 2 ^ 31) mod 2 ^ 32 - 2 ^ 31)%Z.

(** [(n & (n - 1)) === 0]: [&] is taken on the 32-bit conversions of
    its operands. *)
Definition isPowerOfTwo (n : Z) : bool :=
  bool_decide (Z.land (toInt32 n) (toInt32 (n - 1)) = 0%Z).

(** The loop [for (let i = 0; i < xs.length; i += 2) out.push({ id:
    uid(), a: xs[i], b: xs[i+1] })] shared by [buildSingleElimFirstRound]
    and [submitKnockoutScore]; [xs[i+1]] past the end is [undefined]. *)
Fixpoint pairConsecutive (fresh : nat) (xs : list (option string))
  : list Match :=
  match xs with
  | [] => []
  | [x] => [freshMatch fresh x None]
  | x :: y :: rest => freshMatch fresh x y :: pairConsecutive (S fresh) rest
  end.

(** [buildSingleElimFirstRound(ids)] *)
Definition buildSingleElimFirstRound (rand : nat → nat) (k : nat)
    (fresh : nat) (ids : list string) : list Match :=
  let seeded := shuffle rand k ids in
  pairConsecutive fresh (Some <$> seeded).

(* ================================================================== *)
(** * Podium *)
(* ================================================================== *)

(** A podium place or the champion: [null], or a player reference
    (which may be [undefined]). *)
Inductive Place := PlaceNull | PlaceOf (p : option string).

#[global] Instance Place_eq_dec : EqDecision Place.
Proof. solve_decision. Defined.

Record Podium := mkPodium {
  gold : Place;
  silver : Place;
  bronze : Place
}.

(** [m.scoreA > m.scoreB ? m.b : m.a] *)
Definition loserOf (m : Match) : option string :=
  if scoreA_gt_scoreB m then m_b m else m_a m.

(** [m.scoreA > m.scoreB ? m.scoreB : m.scoreA] *)
Definition losingScore (m : Match) : option Z :=
  if scoreA_gt_scoreB m then scoreB m else scoreA m.

(** [m.scoreA > m.scoreB ? m.a : m.b] *)
Definition winnerOf (m : Match) : option string :=
  if scoreA_gt_scoreB m then m_a m else m_b m.

(** [getPodium(rounds, championId)] *)
Definition getPodium (rounds : list (list Match)) (championId : Place)
  : Podium :=
  match rounds with
  | [] => mkPodium championId PlaceNull PlaceNull
  | _ =>
      let finalRound := default [] (rounds !! (length rounds - 1)) in
      let silver :=
        match finalRound !! 0 with
        | Some final =>
            PlaceOf
              (if bool_decide (PlaceOf (m_a final) = championId)
               then m_b final
               else if bool_decide (PlaceOf (m_b final) = championId)
                    then m_a final
                    else loserOf final)
        | None => PlaceNull
        end in
      let bronze :=
        if bool_decide (2 ≤ length rounds) then
          let semis := default [] (rounds !! (length rounds - 2)) in
          if bool_decide (2 ≤ length semis) then
            let losers := loserOf <$> semis in
            let losingScores := losingScore <$> semis in
            let ls0 := default (-1)%Z (mjoin (losingScores !! 0)) in
            let ls1 := default (-1)%Z (mjoin (losingScores !! 1)) in
            let idx := if bool_decide (ls0 < ls1)%Z then 1 else 0 in
            match mjoin (losers !! idx) with
            | Some p => PlaceOf (Some p)
            | None => PlaceNull
            end
          else PlaceNull
        else PlaceNull in
      mkPodium championId silver bronze
  end.

(* ================================================================== *)
(** * The application state and its handlers *)
(* ================================================================== *)

(** The state of [JordyCBBQCupApp] (one [useState] cell per field),
    with the supply of [uid()] tokens. *)
Record AppState := mkApp {
  players : list Player;
  groups : list Group;
  mode : Mode;
  stage : Stage;
  rounds : list (list Match);
  champion : Place;
  target : Z;
  bracketSkin : bool;
  nextUid : nat
}.

(** The state the component starts in when storage is empty. *)
Definition initialState : AppState :=
  mkApp [] [] ModeGroups StSetup [] PlaceNull 21 false 0.

(** A token used as a player id. *)
Definition uidString (n : nat) : string := pretty n.

(** [Object.fromEntries(players.map(p => [p.id, p]))] *)
Definition playersIndexOf (ps : list Player) : gmap string Player :=
  fromEntries ((λ p, (p_id p, p)) <$> ps).

(** [resetAll] *)
Definition resetAll (s : AppState) : AppState :=
  mkApp [] [] (mode s) StSetup [] PlaceNull (target s) (bracketSkin s)
        (nextUid s).

(** [shuffle(names).map((name, i) => ({ id: uid(), name: name ||
    `Player ${i+1}`, seed: i + 1 }))] *)
Definition seedPlayers (fresh : nat) (shuffled : list string) : list Player :=
  imap (λ i name,
          mkPlayer (uidString (fresh + i))
                   (if bool_decide (name = "")
                    then "Player " +:+ pretty (i + 1) else name)
                   (Z.of_nat (i + 1)))
       shuffled.

(** [String.fromCharCode(65 + i)] *)
Definition groupLabel (i : nat) : string :=
  String (Ascii.ascii_of_nat (65 + i)) "".

(** [chunksArr.map((ch, i) => ({ name: labels[i], players: ..., matches:
    scheduleRoundRobin4(...) }))]; each group draws six tokens. *)
Definition buildGroups (fresh : nat) (chunks : list (list Player))
  : list Group :=
  imap (λ i ch,
          let ids := p_id <$> ch in
          mkGroup (groupLabel i) ids (scheduleRoundRobin4 (fresh + 6 * i) ids))
       chunks.

(** [handleSetup({ names, mode: selectedMode })] *)
Definition handleSetup (names : list string) (selectedMode : Mode)
    (rand : nat → nat) (s : AppState) : AppState :=
  let s0 := mkApp (players s) (groups s) selectedMode (stage s) (rounds s)
                  (champion s) (target s) false (nextUid s) in
  let count := length names in
  match selectedMode with
  | ModeGroups =>
      if bool_decide (count mod 4 ≠ 0 ∨ count < 8 ∨ 32 < count) then s0
      else
        let seeded := seedPlayers (nextUid s) (shuffle rand 0 names) in
        let fresh := nextUid s + length seeded in
        let built := buildGroups fresh (chunk seeded 4) in
        mkApp seeded built selectedMode StGroups [] (champion s) (target s)
              false (fresh + 6 * length built)
  | ModeSingle =>
      if bool_decide (isPowerOfTwo (Z.of_nat count) = false
                      ∨ count < 4 ∨ 32 < count) then s0
      else
        let seeded := seedPlayers (nextUid s) (shuffle rand 0 names) in
        let fresh := nextUid s + length seeded in
        let firstRound :=
          buildSingleElimFirstRound rand (count - 1) fresh (p_id <$> seeded) in
        mkApp seeded [] selectedMode StKnockout [firstRound] (champion s)
              (target s) false (fresh + length firstRound)
  end.

(** [ms.map((m) => m.id === matchWithScores.id
                     ? { ...matchWithScores, completed: true } : m)] *)
Definition replaceMatch (matchWithScores : Match) (ms : list Match)
  : list Match :=
  (λ m, if bool_decide (m_id m = m_id matchWithScores)
        then markCompleted matchWithScores else m) <$> ms.

(** [updateGroupMatch(groupName, matchWithScores)] *)
Definition updateGroupMatch (groupName : string) (matchWithScores : Match)
    (s : AppState) : AppState :=
  let groups' :=
    (λ g, if bool_decide (g_name g ≠ groupName) then g
          else mkGroup (g_name g) (g_players g)
                       (replaceMatch matchWithScores (g_matches g)))
    <$> groups s in
  mkApp (players s) groups' (mode s) (stage s) (rounds s) (champion s)
        (target s) (bracketSkin s) (nextUid s).

(** [prev.map((r, i) => i === roundIndex ? r.map(...) : r)] *)
Definition updateRounds (roundIndex : nat) (matchWithScores : Match)
    (prev : list (list Match)) : list (list Match) :=
  imap (λ i r, if bool_decide (i = roundIndex)
               then replaceMatch matchWithScores r else r) prev.

(** [next[roundIndex].every(m => m.completed)] *)
Definition allCompleted (ms : list Match) : bool := forallb is_completed ms.

(** [submitKnockoutScore(roundIndex, matchWithScores)]: the updater
    passed to [setRounds], with the [setChampion] and [setStage] calls
    it makes.  [None] is the [TypeError] of [next[roundIndex].every]
    when there is no such round. *)
Definition submitKnockoutScore (roundIndex : nat) (matchWithScores : Match)
    (s : AppState) : option AppState :=
  let next := updateRounds roundIndex matchWithScores (rounds s) in
  r ← next !! roundIndex;
  if allCompleted r then
    let winners := winnerOf <$> r in
    if bool_decide (length winners = 1) then
      Some (mkApp (players s) (groups s) (mode s) StChampion next
                  (PlaceOf (mjoin (winners !! 0))) (target s)
                  (bracketSkin s) (nextUid s))
    else
      let nextRound := pairConsecutive (nextUid s) winners in
      Some (mkApp (players s) (groups s) (mode s) (stage s)
                  (next ++ [nextRound]) (champion s) (target s)
                  (bracketSkin s) (nextUid s + length nextRound))
  else
    Some (mkApp (players s) (groups s) (mode s) (stage s) next (champion s)
                (target s) (bracketSkin s) (nextUid s)).

(** The "Save Score" button of a [MatchCard]: disabled while the
    validator reports an error; otherwise it hands [{ ...match, scoreA:
    sa, scoreB: sb, completed: true }] to [onSubmit]. *)
Definition saveScore (tgt : Z) (m : Match) (sa sb : option Z) : option Match :=
  match validateCornholeScore sa sb tgt with
  | None => Some (mkMatch (m_id m) (m_a m) (m_b m) sa sb (Some true))
  | Some _ => None
  end.

(** [setStage(st)], with the bracket skin optionally chosen. *)
Definition showStage (st : Stage) (skin : option bool) (s : AppState)
  : AppState :=
  mkApp (players s) (groups s) (mode s) st (rounds s) (champion s)
        (target s) (default (bracketSkin s) skin) (nextUid s).

(** [setTarget(Number(v))] *)
Definition setTarget (t : Z) (s : AppState) : AppState :=
  mkApp (players s) (groups s) (mode s) (stage s) (rounds s) (champion s)
        t (bracketSkin s) (nextUid s).

(** The user's commands, one per control of the interface. *)
Inductive Event :=
  | EvSetTarget (t : Z)
  | EvStart (names : list string) (m : Mode) (rand : nat → nat)
  | EvSaveGroupScore (groupIndex matchIndex : nat) (sa sb : option Z)
  | EvGenerateKnockout
  | EvSaveKnockoutScore (roundIndex matchIndex : nat) (sa sb : option Z)
  | EvShowSetup
  | EvShowGroups
  | EvShowKnockout
  | EvShowBracket
  | EvViewBracket
  | EvReset.

(** Truthiness of [champion]. *)
Definition truthyPlace (c : Place) : bool :=
  match c with PlaceOf o => truthyId o | PlaceNull => false end.

Section App.

Variable localeCompare : string → string → Z.

(** [advanceToKnockout]; [None] is a [TypeError] raised by
    [buildKnockout]. *)
Definition advanceToKnockout (s : AppState) : option AppState :=
  pairings ← buildKnockout localeCompare (nextUid s) (groups s)
               (playersIndexOf (players s));
  if bool_decide (length pairings = 0) then Some s
  else Some (mkApp (players s) (groups s) (mode s) StKnockout [pairings]
                   (champion s) (target s) (bracketSkin s)
                   (nextUid s + length pairings)).

(** What a command does in a state.  [None] means that the control is
    not on screen or is disabled in that state (or that the handler
    raises).  The conditions are those of the render function: the
    setup form shows in stage [setup]; the group stage shows when
    [stage === "groups" && players.length > 0 && mode === "groups"],
    its "Generate Knockout Bracket" button being disabled unless every
    match of every group is completed; the editable knockout cards
    show when [stage === "knockout" && rounds.length > 0] without the
    bracket skin; the header buttons always show, "Groups" only in
    groups mode; "View Bracket" shows on the champion screen. *)
Definition dispatch (s : AppState) (e : Event) : option AppState :=
  match e with
  | EvSetTarget t =>
      if bool_decide (stage s = StSetup ∧ (t = 11 ∨ t = 21)%Z)
      then Some (setTarget t s) else None
  | EvStart names m rand =>
      if bool_decide (stage s = StSetup)
      then Some (handleSetup names m rand s) else None
  | EvSaveGroupScore gi mi sa sb =>
      if bool_decide (stage s = StGroups ∧ players s ≠ [] ∧
                      mode s = ModeGroups) then
        g ← groups s !! gi;
        m ← g_matches g !! mi;
        res ← saveScore (target s) m sa sb;
        Some (updateGroupMatch (g_name g) res s)
      else None
  | EvGenerateKnockout =>
      if bool_decide (stage s = StGroups ∧ players s ≠ [] ∧
                      mode s = ModeGroups ∧
                      forallb (λ g, allCompleted (g_matches g)) (groups s)
                        = true)
      then advanceToKnockout s else None
  | EvSaveKnockoutScore ri mi sa sb =>
      if bool_decide (stage s = StKnockout ∧ rounds s ≠ [] ∧
                      bracketSkin s = false) then
        r ← rounds s !! ri;
        m ← r !! mi;
        res ← saveScore (target s) m sa sb;
        submitKnockoutScore ri res s
      else None
  | EvShowSetup => Some (showStage StSetup None s)
  | EvShowGroups =>
      if bool_decide (mode s = ModeGroups)
      then Some (showStage StGroups None s) else None
  | EvShowKnockout => Some (showStage StKnockout (Some false) s)
  | EvShowBracket => Some (showStage StKnockout (Some true) s)
  | EvViewBracket =>
      if bool_decide (stage s = StChampion ∧ truthyPlace (champion s) = true)
      then Some (showStage StKnockout None s) else None
  | EvReset => Some (resetAll s)
  end.

(** Running a list of commands; [None] as soon as one is unavailable. *)
Fixpoint run (s : AppState) (es : list Event) : option AppState :=
  match es with
  | [] => Some s
  | e :: es' => s' ← dispatch s e; run s' es'
  end.

(** The states the application can be in. *)
Inductive reachable : AppState → Prop :=
  | reachable_init : reachable initialState
  | reachable_step s e s' :
      reachable s → dispatch s e = Some s' → reachable s'.

End App.

(* ================================================================== *)
(** * Vocabulary of the specification *)
(* ================================================================== *)

(** A match that has been played: marked completed, both scores set,
    and no draw. *)
Definition played (m : Match) : Prop :=
  is_completed m = true ∧
  ∃ x y, scoreA m = Some x ∧ scoreB m = Some y ∧ x ≠ y.

(** A complete match in the sense of the data model: marked completed
    with scores that satisfy the validator for the target. *)
Definition complete (tgt : Z) (m : Match) : Prop :=
  is_completed m = true ∧
  validateCornholeScore (scoreA m) (scoreB m) tgt = None.

(** [w] is the side of [m] with the higher score. *)
Definition higherScorer (m : Match) (w : option string) : Prop :=
  ∃ x y, scoreA m = Some x ∧ scoreB m = Some y ∧
         ((y < x)%Z ∧ w = m_a m ∨ (x < y)%Z ∧ w = m_b m).

(** [l] is the side of [m] with the lower score, and [z] that score. *)
Definition lowerScorer (m : Match) (l : option string) (z : Z) : Prop :=
  ∃ x y, scoreA m = Some x ∧ scoreB m = Some y ∧
         ((y < x)%Z ∧ l = m_b m ∧ z = y ∨ (x < y)%Z ∧ l = m_a m ∧ z = x).

(** A player reference as a podium place: [p ?? null]. *)
Definition placeOrNull (p : option string) : Place :=
  match p with Some i => PlaceOf (Some i) | None => PlaceNull end.

(** The integer a table entry holds ([NaN] read as 0). *)
Definition numZ (n : num) : Z :=
  match n with Int z => z | NaN => 0%Z end.

Definition b2z (b : bool) : Z := if b then 1%Z else 0%Z.

(** [p] took part in the completed match [m] as its side [a] (side [b]). *)
Definition asA (p : string) (m : Match) : bool :=
  is_completed m && bool_decide (m_a m = Some p).
Definition asB (p : string) (m : Match) : bool :=
  is_completed m && bool_decide (m_b m = Some p).

Definition ptsA (m : Match) : Z := default 0%Z (scoreA m).
Definition ptsB (m : Match) : Z := default 0%Z (scoreB m).

Definition sumOver (f : Match → Z) (ms : list Match) : Z :=
  foldr (λ m acc, (f m + acc)%Z) 0%Z ms.

(** The statistics of player [p] as the specification words them:
    matches played, points for and against, matches won (as the higher
    scorer) and lost (as the lower scorer), over the completed matches
    only. *)
Definition playedCount (p : string) : list Match → Z :=
  sumOver (λ m, b2z (asA p m) + b2z (asB p m))%Z.
Definition pointsFor (p : string) : list Match → Z :=
  sumOver (λ m, (if asA p m then ptsA m else 0) +
                (if asB p m then ptsB m else 0))%Z.
Definition pointsAgainst (p : string) : list Match → Z :=
  sumOver (λ m, (if asA p m then ptsB m else 0) +
                (if asB p m then ptsA m else 0))%Z.
Definition wins (p : string) : list Match → Z :=
  sumOver (λ m, b2z (asA p m && bool_decide (ptsB m < ptsA m)%Z) +
                b2z (asB p m && bool_decide (ptsA m < ptsB m)%Z))%Z.
Definition losses (p : string) : list Match → Z :=
  sumOver (λ m, b2z (asA p m && bool_decide (ptsA m < ptsB m)%Z) +
                b2z (asB p m && bool_decide (ptsB m < ptsA m)%Z))%Z.

(** The row the specification describes for player [p]. *)
Definition describes (playersIndex : gmap string Player) (ms : list Match)
    (r : Row) : Prop :=
  let p := r_id r in
  r_name r = playerName playersIndex p ∧
  P r = playedCount p ms ∧
  W r = wins p ms ∧
  L r = losses p ms ∧
  PF r = Int (pointsFor p ms) ∧
  PA r = Int (pointsAgainst p ms) ∧
  PD r = Int (pointsFor p ms - pointsAgainst p ms) ∧
  Pts r = (3 * W r)%Z.

(** The ranking of the specification: points descending, then point
    difference descending, then points for descending, then name
    ascending in the collation [collate]. *)
Definition rankedBefore (collate : string → string → Z) (x y : Row) : Prop :=
  (Pts y < Pts x ∨
   Pts x = Pts y ∧
   (numZ (PD y) < numZ (PD x) ∨
    numZ (PD x) = numZ (PD y) ∧
    (numZ (PF y) < numZ (PF x) ∨
     numZ (PF x) = numZ (PF y) ∧
     collate (r_name x) (r_name y) ≤ 0)))%Z.

(** A match of a group is well formed when, once completed, it has been
    played (both scores, no draw) between two players of the group. *)
Definition matchOf (ps : list string) (m : Match) : Prop :=
  is_completed m = true →
  played m ∧ ∃ a b, m_a m = Some a ∧ m_b m = Some b ∧ a ∈ ps ∧ b ∈ ps.

(** A group as the data model has it: distinct players, matches among
    them. *)
Definition wellFormedGroup (g : Group) : Prop :=
  NoDup (g_players g) ∧ Forall (matchOf (g_players g)) (g_matches g).

(** What [playMatch] does to one row of the store, given whether the
    row is the one [row[m.a]] and whether it is the one [row[m.b]]. *)
Definition stepRow (m : Match) (isA isB : bool) (r : Row) : Row :=
  if is_completed m then
    let on (c : bool) (f : Row → Row) (x : Row) := if c then f x else x in
    let sA := of_score (scoreA m) in
    let sB := of_score (scoreB m) in
    let r := on isA incP r in
    let r := on isB incP r in
    let r := on isA (addScores sA sB) r in
    let r := on isB (addScores sB sA) r in
    if scoreA_gt_scoreB m
    then on isA addPts3 (on isB incL (on isA incW r))
    else on isB addPts3 (on isA incL (on isB incW r))
  else r.

(** The row of player [p] after the matches [ms], starting from [r]. *)
Definition rowAfter (p : string) (ms : list Match) (r : Row) : Row :=
  foldl (λ r m, stepRow m (bool_decide (m_a m = Some p))
                        (bool_decide (m_b m = Some p)) r) r ms.

(** A row whose sort keys are integers. *)
Definition integerRow (r : Row) : Prop :=
  ∃ f d, PF r = Int f ∧ PD r = Int d.

(** The order a comparator induces. *)
Definition cmpLe {A : Type} (cmp : A → A → Z) (x y : A) : Prop :=
  (cmp x y ≤ 0)%Z.

Section KnockoutVocabulary.

Variable localeCompare : string → string → Z.
Variable playersIndex : gmap string Player.

(** The winner and the runner-up of a group: the players of the first
    and of the second row of its standings, if there are such rows. *)
Definition standingsWinner (g : Group) : option string :=
  table ← computeStandings localeCompare g playersIndex;
  r_id <$> table !! 0.
Definition standingsRunnerUp (g : Group) : option string :=
  table ← computeStandings localeCompare g playersIndex;
  r_id <$> table !! 1.

(** The match "[w] vs [r]", skipped when the winner or the runner-up
    is undefined. *)
Definition crossPair (w r : option string)
  : list (option string * option string) :=
  match w, r with
  | Some _, Some _ => [(w, r)]
  | _, _ => []
  end.

(** The pairings the specification describes for groups taken in
    consecutive pairs: for [(G1, G2)], [G1]'s winner against [G2]'s
    runner-up, then [G2]'s winner against [G1]'s runner-up; a group
    left without partner yields nothing. *)
Fixpoint crossPairs (gs : list Group)
  : list (option string * option string) :=
  match gs with
  | G1 :: G2 :: rest =>
      crossPair (standingsWinner G1) (standingsRunnerUp G2) ++
      crossPair (standingsWinner G2) (standingsRunnerUp G1) ++
      crossPairs rest
  | _ => []
  end.

End KnockoutVocabulary.

(** The comparison of two groups by name, and the groups in that order. *)
Definition compareGroupNames (g h : Group) : Z :=
  byteCompare (g_name g) (g_name h).
Definition groupsByName (gs : list Group) : list Group :=
  sortBy compareGroupNames gs.

(* ================================================================== *)
(** * Bracket invariants and a session that breaks them *)
(* ================================================================== *)

(** Every match of every group is completed. *)
Definition groupsCompleted (s : AppState) : Prop :=
  Forall (λ g, allCompleted (g_matches g) = true) (groups s).

(** The first knockout round exists only with all groups completed. *)
Definition firstRoundAfterGroups (s : AppState) : Prop :=
  rounds s ≠ [] → groupsCompleted s.

(** Each later round stands behind a round whose matches are all
    completed: the invariant of the specification. *)
Definition roundsFollowCompletedRounds (rs : list (list Match)) : Prop :=
  ∀ k prev r, rs !! k = Some prev → rs !! S k = Some r →
              allCompleted prev = true.

(** What the code maintains instead: each later round was derived from
    some earlier round, all of whose matches are completed. *)
Definition roundsDerivedFromCompletedRounds (rs : list (list Match)) : Prop :=
  ∀ k r, rs !! S k = Some r →
         ∃ j src, j ≤ k ∧ rs !! j = Some src ∧ allCompleted src = true ∧
                  length r = (length src + 1) `div` 2.

(** A single-elimination session with four players: both semifinals
    are saved, which creates the final, and then "Save Score" is
    pressed once more on the first semifinal. *)
Definition semifinalsPlayed : list Event :=
  [ EvStart ["w"; "x"; "y"; "z"] ModeSingle (λ _, 0);
    EvSaveKnockoutScore 0 0 (Some 21%Z) (Some 3%Z);
    EvSaveKnockoutScore 0 1 (Some 5%Z) (Some 21%Z) ].

Definition semifinalSavedAgain : Event :=
  EvSaveKnockoutScore 0 0 (Some 21%Z) (Some 3%Z).

(* ================================================================== *)
(** * Further vocabulary *)
(* ================================================================== *)

(** The number of slices [chunk] cuts a list of [n] elements into. *)
Definition chunkCount (n size : nat) : nat := (n + size - 1) `div` size.

(** The two sides of a match, in order. *)
Definition sides (m : Match) : list (option string) := [m_a m; m_b m].

(** Two states hold the same tournament: all but the mode and the
    bracket skin agree. *)
Definition sameTournament (s s' : AppState) : Prop :=
  players s' = players s ∧ groups s' = groups s ∧ rounds s' = rounds s ∧
  stage s' = stage s ∧ champion s' = champion s ∧ target s' = target s ∧
  nextUid s' = nextUid s.

(** The player counts the two formats accept. *)
Definition singleCounts : list nat := [4; 8; 16; 32].
Definition groupCounts : list nat := [8; 12; 16; 20; 24; 28; 32].

(** What every row of a standings table satisfies, whatever the
    matches were. *)
Definition rowConsistent (r : Row) : Prop :=
  Pts r = (3 * W r)%Z ∧ P r = (W r + L r)%Z ∧
  PD r = num_sub (PF r) (PA r) ∧ (0 ≤ W r)%Z ∧ (0 ≤ L r)%Z.

(** The total of a column of the table. *)
Definition total (F : Row → Z) (table : list Row) : Z :=
  foldr (λ r acc, (F r + acc)%Z) 0%Z table.

(** [matches.filter(m => m.completed).length] *)
Definition completedIn (ms : list Match) : nat :=
  length (filter (λ m, is_completed m = true) ms).

(** A completed match names a player outside the group [ps]: the case
    in which [computeStandings] raises. *)
Definition strayMatch (ps : list string) (m : Match) : Prop :=
  is_completed m = true ∧
  (propKey (m_a m) ∉ ps ∨ propKey (m_b m) ∉ ps).

(** The three figures [GroupStage] derives from the groups: whether the
    "Generate Knockout Bracket" button is enabled, and the two numbers
    of its progress line. *)
Definition groupStageAllCompleted (gs : list Group) : bool :=
  forallb (λ g, allCompleted (g_matches g)) gs.
Definition completedCount (gs : list Group) : nat :=
  foldl (λ acc g, acc + completedIn (g_matches g)) 0 gs.
Definition totalMatches (gs : list Group) : nat :=
  foldl (λ acc g, acc + length (g_matches g)) 0 gs.

(* ================================================================== *)
(** * Soundness of the tournament state *)
(* ================================================================== *)

(** All matches the state holds: those of the groups, then those of
    the rounds. *)
Definition allMatches (s : AppState) : list Match :=
  concat (g_matches <$> groups s) ++ concat (rounds s).

(** The six pairings of a round robin over the first four players. *)
Definition roundRobinPairs (ps : list string)
  : list (option string * option string) :=
  [ (ps !! 0, ps !! 1); (ps !! 0, ps !! 2); (ps !! 0, ps !! 3);
    (ps !! 1, ps !! 2); (ps !! 1, ps !! 3); (ps !! 2, ps !! 3) ].

(** A group as [handleSetup] builds it: four distinct players with
    non-empty ids, and the six matches of their round robin. *)
Definition groupShape (g : Group) : Prop :=
  length (g_players g) = 4 ∧ NoDup (g_players g) ∧
  Forall (λ p, p ≠ "") (g_players g) ∧
  participants <$> g_matches g = roundRobinPairs (g_players g).

(** A completed match carries a result the validator accepts, for
    target 11 or for target 21. *)
Definition matchValid (m : Match) : Prop :=
  is_completed m = true → complete 11 m ∨ complete 21 m.

(** Match ids are distinct tokens, all drawn already. *)
Definition tokensFresh (s : AppState) : Prop :=
  NoDup (m_id <$> allMatches s) ∧
  Forall (λ m, m_id m < nextUid s) (allMatches s).

Definition stateSound (s : AppState) : Prop :=
  (target s = 11 ∨ target s = 21)%Z ∧
  NoDup (g_name <$> groups s) ∧
  Forall groupShape (groups s) ∧
  Forall matchValid (allMatches s) ∧
  tokensFresh s ∧
  NoDup (p_id <$> players s) ∧
  (groups s = [] ∨ concat (g_players <$> groups s) = p_id <$> players s).

(** The match a "Save Score" button hands over for the card of [m]. *)
Definition savedMatch (m : Match) (sa sb : option Z) : Match :=
  mkMatch (m_id m) (m_a m) (m_b m) sa sb (Some true).

(** The names of the properties that a plain object inherits from
    [Object.prototype]: reading one of them from an object that has no
    own property of that name does not give [undefined]. *)
Definition inheritedKeys : list string :=
  [ "constructor"; "hasOwnProperty"; "isPrototypeOf";
    "propertyIsEnumerable"; "toLocaleString"; "toString"; "valueOf";
    "__proto__"; "__defineGetter__"; "__defineSetter__";
    "__lookupGetter__"; "__lookupSetter__" ].

(** A completed match reads from the [row] object of a group with
    players [ps] no inherited property: each side is a player of the
    group or a name that the object does not have at all. *)
Definition readsOwnKeys (ps : list string) (m : Match) : Prop :=
  is_completed m = true →
  Forall (λ k, k ∈ inheritedKeys → k ∈ ps)
         [propKey (m_a m); propKey (m_b m)].

#[global] Instance readsOwnKeys_dec (ps : list string) (m : Match) :
  Decision (readsOwnKeys ps m).
Proof. unfold readsOwnKeys. apply _. Defined.

(* ================================================================== *)
(** * Properties *)
(* ================================================================== *)

(** ** Properties of the validator *)

(** What a [null] answer says about the scores. *)
Lemma validate_null_scores (sa sb : option Z) (t : Z) :
  validateCornholeScore sa sb t = None →
  ∃ x y, sa = Some x ∧ sb = Some y ∧ x ≠ y ∧
         Z.max x y = t ∧ (Z.min x y < t)%Z.
Proof.
  unfold validateCornholeScore.
  destruct sa as [x|], sb as [y|]; try done.
  repeat case_bool_decide; try done.
  intros _. exists x, y. repeat split; try done; lia.
Qed.

(** C1: the validator answers [null] exactly when both scores are
    present, they differ, the larger one is the target and the smaller
    one is below the target; in every other case the answer is an error
    message (a non-null value). *)
Theorem validate_null_iff (sa sb : option Z) (t : Z) :
  (validateCornholeScore sa sb t = None ↔
     ∃ x y, sa = Some x ∧ sb = Some y ∧ x ≠ y ∧
            Z.max x y = t ∧ (Z.min x y < t)%Z) ∧
  (validateCornholeScore sa sb t ≠ None →
     ∃ msg, validateCornholeScore sa sb t = Some msg).
Proof.
  split.
  - split; [apply validate_null_scores|].
    intros (x & y & -> & -> & Hne & Hmax & Hmin).
    unfold validateCornholeScore.
    rewrite bool_decide_false by done. cbn zeta.
    rewrite bool_decide_false by (intros Hn; by apply Hn).
    rewrite bool_decide_false by lia. done.
  - destruct (validateCornholeScore sa sb t) as [msg|]; [eauto | done].
Qed.

Lemma validate_null_iff_witness :
  validateCornholeScore (Some 21%Z) (Some 0%Z) 21 = None.
Proof.
  apply (validate_null_iff (Some 21%Z) (Some 0%Z) 21).
  exists 21%Z, 0%Z. split_and!; [done | done | done | reflexivity | reflexivity].
Defined.

(** C10: the "Loser must be below target" answer is never produced:
    once both scores are present, differ, and the larger one equals the
    target, the smaller one is strictly below it. *)
Theorem validate_loser_branch_unreachable (sa sb : option Z) (t : Z) :
  validateCornholeScore sa sb t ≠ Some (msgLoser t) ∧
  (∀ x y, sa = Some x → sb = Some y → x ≠ y → Z.max x y = t →
          (Z.min x y < t)%Z).
Proof.
  split.
  - unfold validateCornholeScore.
    destruct sa as [x|], sb as [y|]; try discriminate.
    repeat case_bool_decide; try discriminate. lia.
  - intros x y _ _ Hne Hmax. lia.
Qed.

Lemma validate_loser_branch_unreachable_witness : (Z.min 21 7 < 21)%Z.
Proof.
  apply (proj2 (validate_loser_branch_unreachable (Some 21%Z) (Some 7%Z) 21)
           21%Z 7%Z); [reflexivity | reflexivity | done | reflexivity].
Defined.

(** ** Properties of the scheduler *)

Lemma NoDup_four {A : Type} (a b c d : A) :
  NoDup [a; b; c; d] →
  a ≠ b ∧ a ≠ c ∧ a ≠ d ∧ b ≠ c ∧ b ≠ d ∧ c ≠ d.
Proof.
  rewrite !NoDup_cons, !not_elem_of_cons. intuition auto.
Qed.

(** C8: for four player ids the schedule has exactly six matches, in
    the order 1v2, 1v3, 1v4, 2v3, 2v4, 3v4 over the input order; every
    match is unplayed (no scores, not completed); and when the four ids
    are distinct every 2-combination of them is played by exactly one
    match, each match being such a combination. *)
Theorem scheduleRoundRobin4_spec (fresh : nat) (A B C D : string) :
  let ids := [A; B; C; D] in
  let ms := scheduleRoundRobin4 fresh ids in
  length ms = 6 ∧
  participants <$> ms =
    [ (Some A, Some B); (Some A, Some C); (Some A, Some D);
      (Some B, Some C); (Some B, Some D); (Some C, Some D) ] ∧
  Forall unplayed ms ∧
  (NoDup ids →
     (∀ x y, x ∈ ids → y ∈ ids → x ≠ y →
             length (filter (meets x y) ms) = 1) ∧
     (∀ m, m ∈ ms →
           ∃ x y, x ∈ ids ∧ y ∈ ids ∧ x ≠ y ∧ meets x y m)).
Proof.
  cbn zeta. split_and!; [done | done | repeat constructor |].
  intros (?&?&?&?&?&?)%NoDup_four. split.
  - intros x y Hx Hy Hxy.
    unfold scheduleRoundRobin4; cbn [lookup list_lookup].
    rewrite !elem_of_cons, elem_of_nil in Hx, Hy.
    rewrite !filter_cons, filter_nil.
    unfold meets, freshMatch; cbn [m_a m_b].
    destruct Hx as [->|[->|[->|[->|[]]]]], Hy as [->|[->|[->|[->|[]]]]];
      try done; repeat case_decide;
      first [reflexivity | exfalso; intuition congruence].
  - intros m Hm.
    unfold scheduleRoundRobin4 in Hm; cbn [lookup list_lookup] in Hm.
    rewrite !elem_of_cons, elem_of_nil in Hm.
    destruct Hm as [->|[->|[->|[->|[->|[->|[]]]]]]];
      [exists A, B|exists A, C|exists A, D|exists B, C|exists B, D|exists C, D];
      (split_and!; [set_solver | set_solver | done | by left]).
Qed.

Lemma scheduleRoundRobin4_spec_witness :
  length (filter (meets "p2" "p4")
            (scheduleRoundRobin4 0 ["p1"; "p2"; "p3"; "p4"])) = 1.
Proof.
  apply (scheduleRoundRobin4_spec 0 "p1" "p2" "p3" "p4").
  - compute_done.
  - set_solver.
  - set_solver.
  - discriminate.
Defined.

(** ** Properties of the podium resolver *)

Lemma complete_played (t : Z) (m : Match) : complete t m → played m.
Proof.
  intros [Hc Hv]. split; [done|].
  apply validate_null_scores in Hv as (x & y & ? & ? & ? & _). eauto.
Qed.

Lemma lowerScorer_loserOf (m : Match) (l : option string) (z : Z) :
  lowerScorer m l z → loserOf m = l ∧ losingScore m = Some z.
Proof.
  intros (x & y & Hx & Hy & Hcase).
  unfold loserOf, losingScore, scoreA_gt_scoreB. rewrite Hx, Hy.
  case_bool_decide; destruct Hcase as [(?&->&->)|(?&->&->)]; (done || lia).
Qed.

Lemma played_lowerScorer (m : Match) :
  played m → ∃ l z, lowerScorer m l z.
Proof.
  intros (_ & x & y & Hx & Hy & Hne).
  destruct (decide (y < x)%Z).
  - exists (m_b m), y, x, y. naive_solver.
  - exists (m_a m), x, x, y. split_and!; [done..|]. right. split; [lia|done].
Qed.

Lemma rounds_last_lookup {A : Type} (l : list A) :
  l !! (length l - 1) = last l.
Proof.
  destruct l as [|x l] using rev_ind; [done|].
  rewrite last_snoc, length_app; cbn.
  replace (length l + 1 - 1) with (length l) by lia.
  by rewrite list_lookup_middle.
Qed.

(** The result of [getPodium] once [!rounds?.length] has been passed. *)
Lemma getPodium_nonempty (rs : list (list Match)) (championId : Place) :
  rs ≠ [] →
  getPodium rs championId =
    mkPodium championId
      match default [] (rs !! (length rs - 1)) !! 0 with
      | Some final =>
          PlaceOf (if bool_decide (PlaceOf (m_a final) = championId)
                   then m_b final
                   else if bool_decide (PlaceOf (m_b final) = championId)
                        then m_a final else loserOf final)
      | None => PlaceNull
      end
      (if bool_decide (2 ≤ length rs) then
         let semis := default [] (rs !! (length rs - 2)) in
         if bool_decide (2 ≤ length semis) then
           let ls0 := default (-1)%Z (mjoin ((losingScore <$> semis) !! 0)) in
           let ls1 := default (-1)%Z (mjoin ((losingScore <$> semis) !! 1)) in
           match mjoin ((loserOf <$> semis)
                          !! (if bool_decide (ls0 < ls1)%Z then 1 else 0)) with
           | Some p => PlaceOf (Some p)
           | None => PlaceNull
           end
         else PlaceNull
       else PlaceNull).
Proof. by destruct rs. Qed.

(** C6, as the code has it: gold is always the given champion; silver is
    set from the first match of the last round as soon as that round has
    at least one match (and is null exactly when there is no round or
    the last round is empty); bronze can be set only when there are at
    least two rounds and the round before the last has at least two
    matches, and is null otherwise. *)
Theorem getPodium_places (rs : list (list Match)) (championId : Place) :
  let res := getPodium rs championId in
  gold res = championId ∧
  (∀ final rest, last rs = Some (final :: rest) →
     silver res =
       PlaceOf (if bool_decide (PlaceOf (m_a final) = championId)
                then m_b final
                else if bool_decide (PlaceOf (m_b final) = championId)
                     then m_a final
                     else loserOf final)) ∧
  (silver res = PlaceNull ↔ rs = [] ∨ last rs = Some []) ∧
  (bronze res ≠ PlaceNull →
     2 ≤ length rs ∧
     ∃ semis, rs !! (length rs - 2) = Some semis ∧ 2 ≤ length semis) ∧
  (length rs < 2 ∨
   (∃ semis, rs !! (length rs - 2) = Some semis ∧ length semis < 2) →
   bronze res = PlaceNull).
Proof.
  cbn zeta. destruct rs as [|r0 rs'] eqn:Hrs.
  { cbn. split_and!; try done. split; [by left | done]. }
  rewrite <- Hrs. assert (Hne : rs ≠ []) by (by rewrite Hrs).
  rewrite getPodium_nonempty by done; cbn [gold silver bronze].
  rewrite rounds_last_lookup.
  assert (is_Some (last rs)) as [lr Hlr].
  { rewrite last_is_Some. done. }
  rewrite Hlr; cbn [default].
  split_and!.
  - done.
  - by intros final rest [= ->].
  - destruct lr as [|final rest]; cbn.
    + split; [by right | done].
    + split; [done | intros [?|[=]]; done].
  - case_bool_decide as Hlen; [|done].
    destruct (rs !! (length rs - 2)) as [semis|] eqn:Hsemis; cbn.
    + case_bool_decide; [|done]. eauto.
    + done.
  - intros [Hlt | (semis & Hsemis & Hlt)].
    + rewrite bool_decide_false by lia. done.
    + rewrite Hsemis; cbn.
      case_bool_decide; [|done]. rewrite bool_decide_false by lia. done.
Qed.

Lemma getPodium_places_witness :
  bronze (getPodium [[freshMatch 0 (Some "a") (Some "b")]] (PlaceOf (Some "a")))
    = PlaceNull.
Proof.
  apply (getPodium_places [[freshMatch 0 (Some "a") (Some "b")]]
           (PlaceOf (Some "a"))).
  left. cbn. lia.
Defined.

(** C6 as stated fails: with a last round of two matches (not a sole
    match) silver is still set, and with a round before the last of
    three matches (not two) bronze is still set. *)
Lemma getPodium_not_only_exact_sizes :
  let f1 := mkMatch 1 (Some "a") (Some "b") (Some 21%Z) (Some 5%Z) (Some true) in
  let f2 := mkMatch 2 (Some "c") (Some "d") (Some 21%Z) (Some 7%Z) (Some true) in
  let f3 := mkMatch 3 (Some "e") (Some "f") (Some 21%Z) (Some 9%Z) (Some true) in
  let g := mkMatch 4 (Some "a") (Some "c") (Some 21%Z) (Some 0%Z) (Some true) in
  length [f1; f2] ≠ 1 ∧
  silver (getPodium [[f1; f2]] (PlaceOf (Some "a"))) = PlaceOf (Some "b") ∧
  length [f1; f2; f3] ≠ 2 ∧
  bronze (getPodium [[f1; f2; f3]; [g]] (PlaceOf (Some "a")))
    = PlaceOf (Some "d").
Proof. cbn zeta. split_and!; [done | reflexivity | done | reflexivity]. Qed.

(** C5, as the code has it: when the round before the last consists of
    two played matches, bronze is the loser with the strictly higher
    losing score, and when the two losing scores are equal it is the
    loser of the first of the two matches. *)
Theorem getPodium_bronze (rs : list (list Match)) (championId : Place)
    (s1 s2 : Match) (l1 l2 : option string) (z1 z2 : Z) :
  2 ≤ length rs →
  rs !! (length rs - 2) = Some [s1; s2] →
  played s1 → played s2 →
  lowerScorer s1 l1 z1 → lowerScorer s2 l2 z2 →
  bronze (getPodium rs championId) =
    placeOrNull (if bool_decide (z1 < z2)%Z then l2 else l1).
Proof.
  intros Hlen Hsemis _ _ [<- Hz1]%lowerScorer_loserOf [<- Hz2]%lowerScorer_loserOf.
  rewrite getPodium_nonempty by (intros ->; cbn in Hlen; lia).
  cbn [bronze]. rewrite bool_decide_true by done.
  rewrite Hsemis; cbn zeta; cbn [default].
  rewrite bool_decide_true by (cbn; lia).
  cbn. rewrite Hz1, Hz2; cbn.
  case_bool_decide; cbn; by destruct (loserOf _).
Qed.

Lemma getPodium_bronze_witness :
  let s1 := mkMatch 1 (Some "a") (Some "b") (Some 21%Z) (Some 10%Z) (Some true) in
  let s2 := mkMatch 2 (Some "c") (Some "d") (Some 21%Z) (Some 10%Z) (Some true) in
  let f := mkMatch 3 (Some "a") (Some "c") (Some 21%Z) (Some 0%Z) (Some true) in
  bronze (getPodium [[s1; s2]; [f]] (PlaceOf (Some "a"))) = PlaceOf (Some "b").
Proof.
  intros s1 s2 f.
  apply (getPodium_bronze [[s1; s2]; [f]] (PlaceOf (Some "a")) s1 s2
           (Some "b") (Some "d") 10 10).
  - cbn; lia.
  - reflexivity.
  - split; [reflexivity|]. exists 21%Z, 10%Z. done.
  - split; [reflexivity|]. exists 21%Z, 10%Z. done.
  - exists 21%Z, 10%Z. split_and!; [done..|]. left. done.
  - exists 21%Z, 10%Z. split_and!; [done..|]. left. done.
Defined.

(** C5 as stated fails on ties: with two semifinals lost 10 to 21, the
    code gives bronze to the loser of the first semifinal, not to the
    loser of the second. *)
Lemma getPodium_bronze_tie_takes_first :
  let s1 := mkMatch 1 (Some "a") (Some "b") (Some 21%Z) (Some 10%Z) (Some true) in
  let s2 := mkMatch 2 (Some "c") (Some "d") (Some 21%Z) (Some 10%Z) (Some true) in
  let f := mkMatch 3 (Some "a") (Some "c") (Some 21%Z) (Some 0%Z) (Some true) in
  let res := getPodium [[s1; s2]; [f]] (PlaceOf (Some "a")) in
  played s1 ∧ played s2 ∧
  losingScore s1 = losingScore s2 ∧
  loserOf s2 = Some "d" ∧
  bronze res = PlaceOf (Some "b") ∧
  bronze res ≠ placeOrNull (loserOf s2).
Proof.
  cbn zeta. split_and!; try reflexivity; try done.
  - split; [reflexivity|]. exists 21%Z, 10%Z. done.
  - split; [reflexivity|]. exists 21%Z, 10%Z. done.
Qed.

(** ** Properties of round advancement *)

(** Induction over a list two elements at a time, as the pairing loop
    walks it. *)
Lemma list_pair_ind {A : Type} (Q : list A → Prop) :
  Q [] → (∀ x, Q [x]) → (∀ x y l, Q l → Q (x :: y :: l)) → ∀ l, Q l.
Proof.
  intros Hnil Hone Hstep l.
  enough (Q l ∧ ∀ x, Q (x :: l)) by tauto.
  induction l as [|y l [IH1 IH2]]; split; auto.
Qed.

Lemma pairConsecutive_length (fresh : nat) (xs : list (option string)) :
  length (pairConsecutive fresh xs) = (length xs + 1) `div` 2.
Proof.
  revert fresh. induction xs as [| x | x y xs IH] using list_pair_ind;
    intros fresh; [done.. |].
  cbn [pairConsecutive length]. rewrite IH.
  replace (S (S (length xs)) + 1) with (1 * 2 + (length xs + 1)) by lia.
  rewrite Nat.div_add_l by done. lia.
Qed.

Lemma pairConsecutive_lookup (fresh : nat) (xs : list (option string))
    (k : nat) (m : Match) :
  pairConsecutive fresh xs !! k = Some m →
  m = freshMatch (fresh + k) (mjoin (xs !! (2 * k)))
                 (mjoin (xs !! (2 * k + 1))).
Proof.
  revert fresh k. induction xs as [| x | x y xs IH] using list_pair_ind;
    intros fresh k Hk.
  - done.
  - destruct k as [|k]; [|done].
    cbn in Hk. injection Hk as <-. by rewrite Nat.add_0_r.
  - destruct k as [|k].
    + cbn in Hk. injection Hk as <-. by rewrite Nat.add_0_r.
    + cbn [pairConsecutive lookup list_lookup] in Hk.
      apply IH in Hk as ->.
      replace (2 * S k) with (S (S (2 * k))) by lia.
      replace (S fresh + k) with (fresh + S k) by lia. done.
Qed.

Lemma winnerOf_higherScorer (m : Match) :
  played m → higherScorer m (winnerOf m).
Proof.
  intros (_ & x & y & Hx & Hy & Hne). exists x, y. split_and!; [done..|].
  unfold winnerOf, scoreA_gt_scoreB. rewrite Hx, Hy.
  case_bool_decide; [left | right]; split; (done || lia).
Qed.

Lemma allCompleted_Forall (r : list Match) :
  allCompleted r = true ↔ Forall (λ m, is_completed m = true) r.
Proof.
  unfold allCompleted. rewrite forallb_forall, Forall_forall.
  by setoid_rewrite list_elem_of_In.
Qed.

(** C2: when every match of the round a score was submitted to is
    complete, the winners are the higher scorers of its matches, in
    match order; a single winner becomes the champion, the stage
    becomes [champion] and no round is added; otherwise one round is
    appended that pairs the winners consecutively (match [k] plays
    winner [2k] against winner [2k+1]) in unplayed matches, and stage
    and champion stay as they were. *)
Theorem submitKnockoutScore_advances (s : AppState) (roundIndex : nat)
    (matchWithScores : Match) (r : list Match) :
  let next := updateRounds roundIndex matchWithScores (rounds s) in
  next !! roundIndex = Some r →
  Forall (complete (target s)) r →
  ∃ s' winners,
    submitKnockoutScore roundIndex matchWithScores s = Some s' ∧
    Forall2 higherScorer r winners ∧
    (∀ w, winners = [w] →
          champion s' = PlaceOf w ∧ stage s' = StChampion ∧
          rounds s' = next) ∧
    (length winners ≠ 1 →
       ∃ nextRound,
         rounds s' = next ++ [nextRound] ∧
         length nextRound = (length winners + 1) `div` 2 ∧
         (∀ k m, nextRound !! k = Some m →
                 m_a m = mjoin (winners !! (2 * k)) ∧
                 m_b m = mjoin (winners !! (2 * k + 1)) ∧
                 unplayed m) ∧
         stage s' = stage s ∧ champion s' = champion s).
Proof.
  intros next Hr Hall.
  assert (Hdone : allCompleted r = true).
  { apply allCompleted_Forall. eapply Forall_impl; [exact Hall|].
    by intros m [? _]. }
  assert (Hwin : Forall2 higherScorer r (winnerOf <$> r)).
  { apply Forall2_fmap_r, Forall_Forall2_diag.
    eapply Forall_impl; [exact Hall|].
    intros m Hm. eapply winnerOf_higherScorer, complete_played, Hm. }
  unfold submitKnockoutScore. fold next. rewrite Hr; cbn [mbind option_bind].
  rewrite Hdone.
  case_bool_decide as Hone; eexists _, (winnerOf <$> r);
    (split; [reflexivity|]); (split; [exact Hwin|]);
    cbn [champion stage rounds].
  - split; [|done].
    intros w Hw. rewrite Hw. done.
  - split.
    + intros w Hw. rewrite Hw in Hone. done.
    + intros _. eexists. split_and!; try reflexivity.
      * apply pairConsecutive_length.
      * intros k m Hk. apply pairConsecutive_lookup in Hk as ->.
        done.
Qed.

Lemma submitKnockoutScore_advances_witness :
  let m1 := mkMatch 4 (Some "a") (Some "b") None None None in
  let m2 := mkMatch 5 (Some "c") (Some "d") (Some 7%Z) (Some 21%Z) (Some true) in
  let sub := mkMatch 4 (Some "a") (Some "b") (Some 21%Z) (Some 3%Z) (Some true) in
  let s := mkApp [] [] ModeSingle StKnockout [[m1; m2]] PlaceNull 21 false 6 in
  ∃ s' winners,
    submitKnockoutScore 0 sub s = Some s' ∧
    Forall2 higherScorer [sub; m2] winners ∧
    (∀ w, winners = [w] →
          champion s' = PlaceOf w ∧ stage s' = StChampion ∧
          rounds s' = [[sub; m2]]) ∧
    (length winners ≠ 1 →
       ∃ nextRound,
         rounds s' = [[sub; m2]] ++ [nextRound] ∧
         length nextRound = (length winners + 1) `div` 2 ∧
         (∀ k m, nextRound !! k = Some m →
                 m_a m = mjoin (winners !! (2 * k)) ∧
                 m_b m = mjoin (winners !! (2 * k + 1)) ∧
                 unplayed m) ∧
         stage s' = stage s ∧ champion s' = champion s).
Proof.
  intros m1 m2 sub s.
  apply (submitKnockoutScore_advances s 0 sub [sub; m2]).
  - reflexivity.
  - repeat constructor.
Defined.

(** ** Stable insertion sort *)

Section SortBy.
Context {A : Type} (cmp : A → A → Z).

Lemma insertBy_Permutation (x : A) (l : list A) :
  insertBy cmp x l ≡ₚ x :: l.
Proof.
  induction l as [|y l IH]; [done|]. cbn.
  case_bool_decide; [done|]. rewrite IH. apply Permutation_swap.
Qed.

Lemma sortBy_cons (x : A) (l : list A) :
  sortBy cmp (x :: l) = insertBy cmp x (sortBy cmp l).
Proof. reflexivity. Qed.

Lemma sortBy_Permutation (l : list A) : sortBy cmp l ≡ₚ l.
Proof.
  induction l as [|x l IH]; [done|]. rewrite sortBy_cons.
  rewrite insertBy_Permutation. by rewrite IH.
Qed.

Lemma sortBy_length (l : list A) : length (sortBy cmp l) = length l.
Proof. by rewrite sortBy_Permutation. Qed.

(** Sortedness holds as far as the comparator is a total preorder on
    the elements being sorted (those satisfying [Q]). *)
Context (Q : A → Prop).
Hypothesis cmp_total : ∀ x y, Q x → Q y → cmpLe cmp x y ∨ cmpLe cmp y x.
Hypothesis cmp_trans :
  ∀ x y z, Q x → Q y → Q z → cmpLe cmp x y → cmpLe cmp y z → cmpLe cmp x z.

Lemma insertBy_sorted (x : A) (l : list A) :
  Q x → Forall Q l →
  StronglySorted (cmpLe cmp) l → StronglySorted (cmpLe cmp) (insertBy cmp x l).
Proof using cmp_total cmp_trans.
  intros Hx HQ Hs. induction Hs as [|y l Hs IH Hy]; cbn.
  - by repeat constructor.
  - apply Forall_cons in HQ as [HQy HQl].
    case_bool_decide as Hxy.
    + constructor; [by constructor|]. constructor; [done|].
      rewrite Forall_forall in Hy, HQl |- *. intros z Hz.
      eapply (cmp_trans x y z); eauto.
    + constructor; [auto|].
      rewrite insertBy_Permutation. constructor; [|done].
      destruct (cmp_total x y Hx HQy); done.
Qed.

Lemma sortBy_sorted (l : list A) :
  Forall Q l → StronglySorted (cmpLe cmp) (sortBy cmp l).
Proof using cmp_total cmp_trans.
  induction 1 as [|x l Hx Hl IH]; [constructor|]. rewrite sortBy_cons.
  apply insertBy_sorted; [done | | done].
  by rewrite sortBy_Permutation.
Qed.

(** Stability: equal-ranked elements keep their relative order; in
    particular a list that is already in order is left as it is. *)
Lemma sortBy_sorted_id (l : list A) :
  StronglySorted (cmpLe cmp) l → sortBy cmp l = l.
Proof.
  induction 1 as [|x l Hs IH Hx]; [done|]. rewrite sortBy_cons, IH.
  destruct l as [|y l]; [done|]. cbn.
  apply Forall_cons in Hx as [Hxy _]. by rewrite bool_decide_true.
Qed.

End SortBy.

(** ** Properties of the standings calculator *)

Lemma fromEntries_snoc {V : Type} (es : list (string * V)) (e : string * V) :
  fromEntries (es ++ [e]) = <[e.1 := e.2]> (fromEntries es).
Proof. unfold fromEntries. by rewrite foldl_snoc. Qed.

Lemma fromEntries_lookup {V : Type} (es : list (string * V)) (k : string)
    (v : V) :
  NoDup es.*1 → fromEntries es !! k = Some v ↔ (k, v) ∈ es.
Proof.
  induction es as [|[k' v'] es IH] using rev_ind; intros Hnd.
  - cbn. rewrite lookup_empty, elem_of_nil. done.
  - rewrite fmap_app in Hnd. apply NoDup_app in Hnd as (Hnd & Hnot & _).
    rewrite fromEntries_snoc, elem_of_app, list_elem_of_singleton; cbn.
    destruct (decide (k' = k)) as [->|Hne].
    + rewrite lookup_insert_eq. split.
      * intros [= ->]. by right.
      * intros [Hin | [= ->]]; [|done].
        exfalso. eapply Hnot; [|apply list_elem_of_singleton; reflexivity].
        apply list_elem_of_fmap. by exists (k, v).
    + rewrite lookup_insert_ne by done. rewrite IH by done.
      split; [by left | intros [?|[= ? ?]]; done].
Qed.

Lemma rowIndex_lookup (table : list Row) (p : string) (i : nat) :
  NoDup (r_id <$> table) →
  rowIndex table !! p = Some i ↔ ∃ r, table !! i = Some r ∧ r_id r = p.
Proof.
  intros Hnd. unfold rowIndex. rewrite fromEntries_lookup.
  - rewrite elem_of_lookup_imap. split.
    + intros (j & r & [= -> ->] & Hr). eauto.
    + intros (r & Hr & <-). eauto.
  - rewrite fmap_imap.
    rewrite (imap_ext _ (const r_id)) by done. by rewrite imap_const.
Qed.

Lemma initialTable_ids (idx : gmap string Player) (ps : list string) :
  r_id <$> initialTable idx ps = ps.
Proof.
  unfold initialTable. rewrite <- list_fmap_compose.
  rewrite (list_fmap_ext _ id ps) by done. apply list_fmap_id.
Qed.

(** In a group of distinct players [row] sends each player to the
    position of their row. *)
Lemma rowIndex_initialTable (idx : gmap string Player) (ps : list string)
    (p : string) (i : nat) :
  NoDup ps →
  rowIndex (initialTable idx ps) !! p = Some i ↔ ps !! i = Some p.
Proof.
  intros Hnd. rewrite rowIndex_lookup by (by rewrite initialTable_ids).
  unfold initialTable. setoid_rewrite list_lookup_fmap. split.
  - intros (r & Hr & <-). destruct (ps !! i); simplify_eq/=; done.
  - intros ->. eexists; split; [reflexivity|done].
Qed.

Lemma lookup_alter_on {A : Type} (f : A → A) (j : nat) (l : list A) (i : nat) :
  alter f j l !! i = (λ x, if bool_decide (i = j) then f x else x) <$> l !! i.
Proof.
  case_bool_decide as Hij.
  - subst. rewrite list_lookup_alter_eq. by destruct (l !! j).
  - rewrite list_lookup_alter_ne by done. by destruct (l !! i).
Qed.

(** One pass of the loop body, seen from a single row of the store. *)
Lemma playMatch_lookup (row : gmap string nat) (st : list Row) (m : Match)
    (ia ib : nat) :
  is_completed m = true →
  row !! propKey (m_a m) = Some ia →
  row !! propKey (m_b m) = Some ib →
  ∃ st', playMatch row st m = Some st' ∧
         ∀ i, st' !! i =
              stepRow m (bool_decide (i = ia)) (bool_decide (i = ib))
                <$> st !! i.
Proof.
  intros Hc Ha Hb. unfold playMatch. rewrite Hc, Ha, Hb; cbn [mbind option_bind].
  eexists; split; [reflexivity|]. intros i.
  unfold stepRow. rewrite Hc.
  destruct (scoreA_gt_scoreB m);
    rewrite !lookup_alter_on;
    destruct (st !! i) as [r|]; cbn [fmap option_fmap option_map]; done.
Qed.

Lemma playMatch_skip (row : gmap string nat) (st : list Row) (m : Match) :
  is_completed m = false → playMatch row st m = Some st.
Proof. intros Hc. unfold playMatch. by rewrite Hc. Qed.

Lemma rowAfter_cons (p : string) (m : Match) (ms : list Match) (r : Row) :
  rowAfter p (m :: ms) r =
  rowAfter p ms (stepRow m (bool_decide (m_a m = Some p))
                         (bool_decide (m_b m = Some p)) r).
Proof. reflexivity. Qed.

(** The loop over the matches of a well-formed group succeeds, and
    leaves at each position the row of that position's player. *)
Lemma playAll_rows (idx : gmap string Player) (ps : list string)
    (ms : list Match) (st : list Row) :
  NoDup ps →
  Forall (matchOf ps) ms →
  length st = length ps →
  ∃ st', playAll (rowIndex (initialTable idx ps)) st ms = Some st' ∧
         length st' = length ps ∧
         ∀ i p, ps !! i = Some p →
                st' !! i = rowAfter p ms <$> st !! i.
Proof.
  intros Hnd Hms. revert st.
  induction Hms as [|m ms Hm Hms IH]; intros st Hlen.
  { exists st. split_and!; [done..|].
    intros i p _. by destruct (st !! i). }
  cbn [playAll].
  destruct (is_completed m) eqn:Hc.
  - destruct (Hm Hc) as (_ & a & b & Ha & Hb & [ia Hia]%list_elem_of_lookup
                           & [ib Hib]%list_elem_of_lookup).
    destruct (playMatch_lookup (rowIndex (initialTable idx ps)) st m ia ib)
      as (st1 & -> & Hst1); [done | | |].
    { rewrite Ha; cbn. by apply rowIndex_initialTable. }
    { rewrite Hb; cbn. by apply rowIndex_initialTable. }
    cbn [mbind option_bind].
    assert (Hlen1 : length st1 = length ps).
    { rewrite <- Hlen. apply Nat.le_antisymm.
      - apply Nat.nlt_ge. intros Hlt.
        destruct (lookup_lt_is_Some_2 st1 (length st)) as [r Hr]; [lia|].
        rewrite Hst1, lookup_ge_None_2 in Hr by lia. done.
      - apply Nat.nlt_ge. intros Hlt.
        destruct (lookup_lt_is_Some_2 st (length st1)) as [r Hr]; [lia|].
        specialize (Hst1 (length st1)).
        rewrite Hr, lookup_ge_None_2 in Hst1 by lia. done. }
    destruct (IH st1 Hlen1) as (st' & -> & Hlen' & Hst').
    exists st'. split_and!; [done..|].
    intros i p Hp. rewrite (Hst' i p Hp), Hst1, <- option_fmap_compose.
    apply option_fmap_ext; intros r; unfold compose. rewrite rowAfter_cons.
    f_equal. f_equal.
    + rewrite Ha. apply bool_decide_ext. split.
      * intros ->. congruence.
      * intros [= ->]. eapply NoDup_lookup; eauto.
    + rewrite Hb. apply bool_decide_ext. split.
      * intros ->. congruence.
      * intros [= ->]. eapply NoDup_lookup; eauto.
  - rewrite playMatch_skip by done. cbn [mbind option_bind].
    destruct (IH st Hlen) as (st' & -> & Hlen' & Hst').
    exists st'. split_and!; [done..|].
    intros i p Hp. rewrite (Hst' i p Hp).
    apply option_fmap_ext; intros r. rewrite rowAfter_cons.
    unfold stepRow. by rewrite Hc.
Qed.

(** What one completed match adds to a row. *)
Lemma stepRow_stats (m : Match) (isA isB : bool) (r : Row) (f a x y : Z) :
  is_completed m = true →
  scoreA m = Some x → scoreB m = Some y →
  PF r = Int f → PA r = Int a → PD r = Int (f - a) →
  let r' := stepRow m isA isB r in
  let won := (b2z (isA && bool_decide (y < x)%Z) +
              b2z (isB && negb (bool_decide (y < x)%Z)))%Z in
  let f' := (f + (if isA then x else 0) + (if isB then y else 0))%Z in
  let a' := (a + (if isA then y else 0) + (if isB then x else 0))%Z in
  r_id r' = r_id r ∧ r_name r' = r_name r ∧
  P r' = (P r + b2z isA + b2z isB)%Z ∧
  W r' = (W r + won)%Z ∧
  L r' = (L r + b2z (isA && negb (bool_decide (y < x)%Z)) +
                b2z (isB && bool_decide (y < x)%Z))%Z ∧
  PF r' = Int f' ∧ PA r' = Int a' ∧ PD r' = Int (f' - a') ∧
  Pts r' = (Pts r + 3 * won)%Z.
Proof.
  intros Hc Hx Hy Hf Ha Hd. unfold stepRow, scoreA_gt_scoreB.
  rewrite Hc, Hx, Hy. cbn zeta.
  destruct isA, isB, (bool_decide (y < x)%Z);
    cbn; rewrite ?Hf, ?Ha, ?Hd; cbn;
    split_and!; try done; try lia; f_equal; lia.
Qed.

Lemma sumOver_cons (f : Match → Z) (m : Match) (ms : list Match) :
  sumOver f (m :: ms) = (f m + sumOver f ms)%Z.
Proof. reflexivity. Qed.

(** The statistics a row has gathered after a list of matches are those
    of the specification. *)
Lemma rowAfter_stats (p : string) (ms : list Match) (r : Row) (f a : Z) :
  Forall (λ m, is_completed m = true → played m) ms →
  PF r = Int f → PA r = Int a → PD r = Int (f - a) →
  let r' := rowAfter p ms r in
  r_id r' = r_id r ∧ r_name r' = r_name r ∧
  P r' = (P r + playedCount p ms)%Z ∧
  W r' = (W r + wins p ms)%Z ∧
  L r' = (L r + losses p ms)%Z ∧
  PF r' = Int (f + pointsFor p ms) ∧
  PA r' = Int (a + pointsAgainst p ms) ∧
  PD r' = Int ((f + pointsFor p ms) - (a + pointsAgainst p ms)) ∧
  Pts r' = (Pts r + 3 * wins p ms)%Z.
Proof.
  intros Hms. revert r f a.
  induction Hms as [|m ms Hm Hms IH]; intros r f a Hf Ha Hd; cbn zeta.
  { unfold playedCount, wins, losses, pointsFor, pointsAgainst; cbn.
    rewrite Hf, Ha, Hd, !Z.add_0_r. split_and!; try done; lia. }
  rewrite rowAfter_cons.
  unfold playedCount, wins, losses, pointsFor, pointsAgainst.
  rewrite !sumOver_cons.
  fold (playedCount p ms) (wins p ms) (losses p ms) (pointsFor p ms)
       (pointsAgainst p ms).
  unfold asA, asB, ptsA, ptsB.
  destruct (is_completed m) eqn:Hc.
  - destruct (Hm eq_refl) as (_ & x & y & Hx & Hy & Hne).
    set (isA := bool_decide (m_a m = Some p)).
    set (isB := bool_decide (m_b m = Some p)).
    destruct (stepRow_stats m isA isB r f a x y Hc Hx Hy Hf Ha Hd)
      as (Hid & Hname & HP & HW & HL & HPF & HPA & HPD & HPts).
    destruct (IH _ _ _ HPF HPA HPD)
      as (Hid' & Hname' & HP' & HW' & HL' & HPF' & HPA' & HPD' & HPts').
    rewrite Hid', Hname', HP', HW', HL', HPF', HPA', HPD', HPts'.
    rewrite Hid, Hname, HP, HW, HL, HPts, Hx, Hy. cbn [andb default].
    unfold id.
    assert (Hneg : negb (bool_decide (y < x)%Z) = bool_decide (x < y)%Z).
    { repeat case_bool_decide; try done; lia. }
    rewrite Hneg.
    split_and!; try done; try lia; f_equal; lia.
  - unfold stepRow. rewrite Hc. cbn [andb b2z].
    destruct (IH r f a Hf Ha Hd)
      as (Hid' & Hname' & HP' & HW' & HL' & HPF' & HPA' & HPD' & HPts').
    rewrite Hid', Hname', HP', HW', HL', HPF', HPA', HPD', HPts'.
    split_and!; try done; try lia; f_equal; lia.
Qed.

Lemma StronglySorted_refine {A : Type} (R R' : A → A → Prop) (Q : A → Prop)
    (l : list A) :
  (∀ x y, Q x → Q y → R x y → R' x y) →
  Forall Q l → StronglySorted R l → StronglySorted R' l.
Proof.
  intros HR HQ Hs. induction Hs as [|x l Hs IH Hx]; [constructor|].
  apply Forall_cons in HQ as [HQx HQl]. constructor; [auto|].
  rewrite Forall_forall in Hx, HQl |- *. auto.
Qed.

Section StandingsProperties.

Variable localeCompare : string → string → Z.

(** The collation is a total preorder. *)
Hypothesis localeCompare_total :
  ∀ s t, (localeCompare s t ≤ 0 ∨ localeCompare t s ≤ 0)%Z.
Hypothesis localeCompare_trans :
  ∀ s t u, (localeCompare s t ≤ 0 → localeCompare t u ≤ 0 →
            localeCompare s u ≤ 0)%Z.

(** On rows that hold integers the comparator of the source orders
    two rows exactly as the ranking of the specification does. *)
Lemma compareRows_rank (x y : Row) :
  integerRow x → integerRow y →
  cmpLe (λ x y, comparatorValue (compareRows localeCompare x y)) x y ↔
  rankedBefore localeCompare x y.
Proof using Type.
  intros (fx & dx & Hfx & Hdx) (fy & dy & Hfy & Hdy).
  unfold cmpLe, compareRows, rankedBefore.
  rewrite Hfx, Hdx, Hfy, Hdy; cbn [num_sub numZ].
  destruct (Pts y - Pts x)%Z eqn:E1; cbn [num_or comparatorValue];
    [|lia..].
  destruct (dy - dx)%Z eqn:E2; cbn [num_or comparatorValue]; [|lia..].
  destruct (fy - fx)%Z eqn:E3; cbn [num_or comparatorValue]; lia.
Qed.

Lemma rankedBefore_total (x y : Row) :
  rankedBefore localeCompare x y ∨ rankedBefore localeCompare y x.
Proof using localeCompare_total.
  unfold rankedBefore.
  destruct (localeCompare_total (r_name x) (r_name y)); lia.
Qed.

Lemma rankedBefore_trans (x y z : Row) :
  rankedBefore localeCompare x y → rankedBefore localeCompare y z →
  rankedBefore localeCompare x z.
Proof using localeCompare_trans.
  unfold rankedBefore. intros Hxy Hyz.
  pose proof (localeCompare_trans (r_name x) (r_name y) (r_name z)).
  lia.
Qed.

Lemma describes_integerRow (idx : gmap string Player) (ms : list Match)
    (r : Row) :
  describes idx ms r → integerRow r.
Proof using Type.
  intros (_ & _ & _ & _ & Hf & _ & Hd & _). red. eauto.
Qed.

(** C4: for a well-formed group the calculator returns one row per
    group player; each row holds, over the completed matches only,
    the matches played, won (as the higher scorer) and lost (as the
    lower scorer), the points for and against, their difference, and
    three points per win; the rows are in the order of the ranking
    (points, then difference, then points for, all descending, then
    name ascending), which compares any two rows. *)
Theorem computeStandings_spec (g : Group) (idx : gmap string Player) :
  wellFormedGroup g →
  ∃ table,
    computeStandings localeCompare g idx = Some table ∧
    r_id <$> table ≡ₚ g_players g ∧
    Forall (describes idx (g_matches g)) table ∧
    StronglySorted (rankedBefore localeCompare) table ∧
    (∀ x y, rankedBefore localeCompare x y ∨ rankedBefore localeCompare y x) ∧
    (∀ x y z, rankedBefore localeCompare x y →
              rankedBefore localeCompare y z →
              rankedBefore localeCompare x z).
Proof using localeCompare_total localeCompare_trans.
  intros [Hnd Hms].
  set (ps := g_players g) in *. set (ms := g_matches g) in *.
  destruct (playAll_rows idx ps ms (initialTable idx ps) Hnd Hms)
    as (st & Hst & Hlen & Hrows).
  { unfold initialTable. by rewrite length_fmap. }
  assert (Hplayed : Forall (λ m, is_completed m = true → played m) ms).
  { eapply Forall_impl; [exact Hms|]. intros m Hm Hc. by apply Hm. }
  assert (Hrow : ∀ i r, st !! i = Some r →
            ps !! i = Some (r_id r) ∧ describes idx ms r).
  { intros i r Hr.
    destruct (ps !! i) as [p|] eqn:Hp.
    - rewrite (Hrows i p Hp) in Hr. unfold initialTable in Hr.
      rewrite list_lookup_fmap, Hp in Hr. cbn in Hr. injection Hr as <-.
      match goal with |- context [rowAfter p ms ?r] => set (r0 := r) end.
      destruct (rowAfter_stats p ms r0 0 0 Hplayed)
        as (Hid & Hname & HP & HW & HL & HPF & HPA & HPD & HPts);
        [done..|].
      cbn in Hid, Hname, HP, HW, HL, HPts.
      split; [by rewrite Hid|].
      red. rewrite Hid, Hname, HP, HW, HL, HPF, HPA, HPD, HPts.
      split_and!; try done; try lia; f_equal; lia.
    - apply lookup_ge_None_1 in Hp.
      apply lookup_lt_Some in Hr. lia. }
  assert (Hids : r_id <$> st = ps).
  { apply list_eq. intros i. rewrite list_lookup_fmap.
    destruct (st !! i) as [r|] eqn:Hr; cbn.
    - symmetry. by apply Hrow.
    - symmetry. apply lookup_ge_None_2.
      apply lookup_ge_None_1 in Hr. lia. }
  assert (Hdesc : Forall (describes idx ms) st).
  { apply Forall_lookup. intros i r Hr. by apply (Hrow i r). }
  unfold computeStandings. fold ps ms. rewrite Hst; cbn [mbind option_bind].
  eexists; split; [reflexivity|].
  set (cmp := λ x y, comparatorValue (compareRows localeCompare x y)).
  assert (Hdesc' : Forall (describes idx ms) (sortBy cmp st)).
  { by rewrite sortBy_Permutation. }
  split_and!.
  - by rewrite sortBy_Permutation, Hids.
  - done.
  - apply (StronglySorted_refine (cmpLe cmp) _ (describes idx ms));
      [| done |].
    + intros x y Hx Hy. apply compareRows_rank;
        eapply describes_integerRow; eauto.
    + apply (sortBy_sorted cmp (describes idx ms)); [| | done].
      * intros x y Hx Hy. unfold cmp.
        rewrite !compareRows_rank
          by (eapply describes_integerRow; eauto).
        apply rankedBefore_total.
      * intros x y z Hx Hy Hz. unfold cmp.
        rewrite !compareRows_rank
          by (eapply describes_integerRow; eauto).
        apply rankedBefore_trans.
  - apply rankedBefore_total.
  - apply rankedBefore_trans.
Qed.

End StandingsProperties.

(** ** Byte-wise comparison is a total preorder *)

Lemma byteCompare_le (s t : string) :
  (byteCompare s t ≤ 0)%Z ↔
  s = t ∨ OrderedTypeEx.String_as_OT.lt s t.
Proof.
  unfold byteCompare.
  rewrite <- OrderedTypeEx.String_as_OT.cmp_lt, <- OrderedTypeEx.String_as_OT.cmp_eq.
  unfold OrderedTypeEx.String_as_OT.cmp.
  destruct (String.compare s t); split; try lia; try tauto;
    intros [?|?]; done.
Qed.

Lemma byteCompare_total (s t : string) :
  (byteCompare s t ≤ 0 ∨ byteCompare t s ≤ 0)%Z.
Proof.
  unfold byteCompare. rewrite (String.compare_antisym s t).
  destruct (String.compare t s); cbn; lia.
Qed.

Lemma byteCompare_trans (s t u : string) :
  (byteCompare s t ≤ 0 → byteCompare t u ≤ 0 → byteCompare s u ≤ 0)%Z.
Proof.
  rewrite !byteCompare_le. intros [->|Hst] [->|Htu]; auto.
  right. eapply OrderedTypeEx.String_as_OT.lt_trans; eauto.
Qed.

Lemma byteCompare_antisym (s t : string) :
  (byteCompare s t ≤ 0 → byteCompare t s ≤ 0 → s = t)%Z.
Proof.
  rewrite !byteCompare_le. intros [?|Hst] [?|Hts]; try done.
  exfalso. apply (OrderedTypeEx.String_as_OT.lt_not_eq s s); [|reflexivity].
  eapply OrderedTypeEx.String_as_OT.lt_trans; eauto.
Qed.

Lemma byteCompare_sign (s t : string) :
  (byteCompare s t < 0 ↔ 0 < byteCompare t s)%Z.
Proof.
  unfold byteCompare. rewrite (String.compare_antisym s t).
  destruct (String.compare t s); cbn; lia.
Qed.
Lemma byteCompare_empty (s : string) : (byteCompare s "" ≤ 0)%Z → s = "".
Proof. destruct s; [done|]. unfold byteCompare; cbn. lia. Qed.

Lemma computeStandings_spec_witness :
  let idx : gmap string Player :=
    list_to_map [("A", mkPlayer "A" "Alfa" 1); ("B", mkPlayer "B" "Bravo" 2);
                 ("C", mkPlayer "C" "Charlie" 3); ("D", mkPlayer "D" "Delta" 4)] in
  let g := mkGroup "X" ["A"; "B"; "C"; "D"]
    [ mkMatch 1 (Some "A") (Some "B") (Some 21%Z) (Some 10%Z) (Some true);
      mkMatch 2 (Some "C") (Some "D") (Some 21%Z) (Some 0%Z) (Some true) ] in
  ∃ table,
    computeStandings byteCompare g idx = Some table ∧
    r_id <$> table ≡ₚ g_players g ∧
    Forall (describes idx (g_matches g)) table ∧
    StronglySorted (rankedBefore byteCompare) table ∧
    (∀ x y, rankedBefore byteCompare x y ∨ rankedBefore byteCompare y x) ∧
    (∀ x y z, rankedBefore byteCompare x y → rankedBefore byteCompare y z →
              rankedBefore byteCompare x z).
Proof.
  intros idx g.
  apply (computeStandings_spec byteCompare byteCompare_total
           byteCompare_trans g idx).
  split.
  - compute_done.
  - repeat constructor.
    + eexists _, _. done.
    + eexists _, _. split_and!; [done.. | set_solver | set_solver].
    + eexists _, _. done.
    + eexists _, _. split_and!; [done.. | set_solver | set_solver].
Defined.

(** ** Properties of the knockout builder *)

Lemma insertBy_fmap {A B : Type} (f : A → B) (cmp : B → B → Z) (x : A)
    (l : list A) :
  f <$> insertBy (λ x y, cmp (f x) (f y)) x l = insertBy cmp (f x) (f <$> l).
Proof.
  induction l as [|y l IH]; [done|]. cbn.
  case_bool_decide; cbn; [done|]. by rewrite IH.
Qed.

(** Sorting the names is sorting the groups by name. *)
Lemma sortBy_fmap {A B : Type} (f : A → B) (cmp : B → B → Z) (l : list A) :
  f <$> sortBy (λ x y, cmp (f x) (f y)) l = sortBy cmp (f <$> l).
Proof.
  induction l as [|x l IH]; [done|].
  cbn [fmap list_fmap]. rewrite !sortBy_cons, insertBy_fmap. by rewrite IH.
Qed.

Lemma groupsByName_sorted (gs : list Group) :
  StronglySorted (cmpLe compareGroupNames) (groupsByName gs).
Proof.
  apply (sortBy_sorted compareGroupNames (λ _, True)).
  - intros x y _ _. apply byteCompare_total.
  - intros x y z _ _ _. apply byteCompare_trans.
  - by apply Forall_true.
Qed.

Lemma pushPairing_unplayed (fresh : nat) (w r : option string) :
  Forall unplayed (pushPairing fresh w r).
Proof.
  unfold pushPairing.
  destruct (truthyId w && truthyId r); by repeat constructor.
Qed.

(** The test [if (w && r)] also fails on an empty id; on ids that are
    not empty it pushes the match exactly when both are defined. *)
Lemma pushPairing_spec (fresh : nat) (w r : option string) :
  w ≠ Some "" → r ≠ Some "" →
  participants <$> pushPairing fresh w r = crossPair w r.
Proof.
  intros Hw Hr. unfold pushPairing, crossPair, truthyId.
  destruct w as [w|], r as [r|]; cbn; try done.
  - rewrite !bool_decide_false by congruence. done.
  - by destruct (negb _).
Qed.

Lemma crossPairs_drop_unpaired (lc : string → string → Z)
    (idx : gmap string Player) (gs : list Group) (g : Group) :
  Nat.Even (length gs) →
  crossPairs lc idx (gs ++ [g]) = crossPairs lc idx gs.
Proof.
  induction gs as [| x | x y gs IH] using list_pair_ind; intros Hev.
  - done.
  - destruct Hev as [k Hk]. cbn in Hk. lia.
  - cbn [app crossPairs]. rewrite IH; [done|].
    destruct Hev as [k Hk]. cbn in Hk. exists (k - 1). lia.
Qed.

(** The standings of a well-formed group compute, and hold a row for
    each of its players. *)
Lemma wellFormedGroup_standings (lc : string → string → Z)
    (idx : gmap string Player) (g : Group) :
  wellFormedGroup g →
  ∃ table, computeStandings lc g idx = Some table ∧
           r_id <$> table ≡ₚ g_players g.
Proof.
  intros [Hnd Hms].
  set (ps := g_players g) in *. set (ms := g_matches g) in *.
  destruct (playAll_rows idx ps ms (initialTable idx ps) Hnd Hms)
    as (st & Hst & Hlen & Hrows).
  { unfold initialTable. by rewrite length_fmap. }
  assert (Hplayed : Forall (λ m, is_completed m = true → played m) ms).
  { eapply Forall_impl; [exact Hms|]. intros m Hm Hc. by apply Hm. }
  assert (Hids : r_id <$> st = ps).
  { apply list_eq. intros i. rewrite list_lookup_fmap.
    destruct (ps !! i) as [p|] eqn:Hp.
    - rewrite (Hrows i p Hp). unfold initialTable.
      rewrite list_lookup_fmap, Hp. cbn.
      match goal with |- context [rowAfter p ms ?r] => set (r0 := r) end.
      destruct (rowAfter_stats p ms r0 0 0 Hplayed) as (Hid & _); [done..|].
      by rewrite Hid.
    - apply lookup_ge_None_1 in Hp. rewrite lookup_ge_None_2; [done|]. lia. }
  unfold computeStandings. fold ps ms. rewrite Hst; cbn [mbind option_bind].
  eexists; split; [reflexivity|]. by rewrite sortBy_Permutation, Hids.
Qed.

Lemma wellFormedGroup_computes (lc : string → string → Z)
    (idx : gmap string Player) (g : Group) :
  wellFormedGroup g → is_Some (computeStandings lc g idx).
Proof.
  intros (table & -> & _)%(wellFormedGroup_standings lc idx). by eexists.
Qed.

(** The winner and the runner-up of a well-formed group are players of
    the group. *)
Lemma advancers_nonempty (lc : string → string → Z)
    (idx : gmap string Player) (g : Group) :
  wellFormedGroup g → "" ∉ g_players g →
  standingsWinner lc idx g ≠ Some "" ∧ standingsRunnerUp lc idx g ≠ Some "".
Proof.
  intros (table & Htable & Hperm)%(wellFormedGroup_standings lc idx) Hne.
  unfold standingsWinner, standingsRunnerUp. rewrite Htable. cbn.
  split; intros Heq; apply Hne; rewrite <- Hperm;
    apply fmap_Some in Heq as (r & Hr & ->);
    apply list_elem_of_fmap_2; by eapply list_elem_of_lookup_2.
Qed.

Section KnockoutProperties.

Variable localeCompare : string → string → Z.
Variable idx : gmap string Player.

Local Abbreviation advancersOf g :=
  (standingsWinner localeCompare idx g,
   standingsRunnerUp localeCompare idx g).

(** The loop that fills [advancers]: each group's entry holds its
    winner and runner-up (group names being distinct, no entry is
    overwritten by another group). *)
Lemma collectAdvancers_spec (gs : list Group)
    (adv : gmap string (option string * option string)) :
  NoDup (g_name <$> gs) →
  Forall (λ g, is_Some (computeStandings localeCompare g idx)) gs →
  ∃ adv',
    collectAdvancers localeCompare idx adv gs = Some adv' ∧
    (∀ g, g ∈ gs → adv' !! g_name g = Some (advancersOf g)) ∧
    (∀ n, n ∉ g_name <$> gs → adv' !! n = adv !! n).
Proof.
  intros Hnd Hall. revert adv.
  induction Hall as [|g gs [table Hg] Hall IH]; intros adv.
  { exists adv. split_and!; [done | | done]. intros g Hg. by apply elem_of_nil in Hg. }
  cbn [fmap list_fmap] in Hnd. apply NoDup_cons in Hnd as [Hfresh Hnd].
  cbn [collectAdvancers]. rewrite Hg; cbn [mbind option_bind].
  destruct (IH Hnd (<[g_name g:=(r_id <$> table !! 0, r_id <$> table !! 1)]> adv))
    as (adv' & -> & Hin & Hout).
  exists adv'. split_and!; [done | |].
  - intros h [->|Hh]%elem_of_cons; [|by apply Hin].
    rewrite Hout by done. rewrite lookup_insert_eq.
    unfold standingsWinner, standingsRunnerUp. by rewrite Hg.
  - intros n Hn. cbn [fmap list_fmap] in Hn.
    apply not_elem_of_cons in Hn as [Hne Hn].
    rewrite Hout by done. by rewrite lookup_insert_ne.
Qed.

(** The pairing loop over the names of groups that are in name order. *)
Lemma pairGroups_spec
    (adv : gmap string (option string * option string))
    (gs : list Group) (fresh : nat) :
  (∀ g, g ∈ gs → adv !! g_name g = Some (advancersOf g)) →
  NoDup (g_name <$> gs) →
  StronglySorted (cmpLe compareGroupNames) gs →
  Forall (λ g, standingsWinner localeCompare idx g ≠ Some "" ∧
               standingsRunnerUp localeCompare idx g ≠ Some "") gs →
  ∃ pairings,
    pairGroups adv fresh (g_name <$> gs) = Some pairings ∧
    participants <$> pairings = crossPairs localeCompare idx gs ∧
    Forall unplayed pairings.
Proof.
  revert fresh.
  induction gs as [| g | g1 g2 gs IH] using list_pair_ind;
    intros fresh Hadv Hnd Hsorted Hids.
  - by exists [].
  - by exists [].
  - cbn [fmap list_fmap pairGroups].
    assert (Hne : g_name g2 ≠ "").
    { intros Hempty.
      apply StronglySorted_inv in Hsorted as [_ Hle].
      apply Forall_cons in Hle as [Hle _].
      unfold cmpLe, compareGroupNames in Hle. rewrite Hempty in Hle.
      apply byteCompare_empty in Hle.
      cbn [fmap list_fmap] in Hnd. apply NoDup_cons in Hnd as [Hnot _].
      apply Hnot. rewrite Hle, <- Hempty. apply elem_of_cons. by left. }
    rewrite bool_decide_false by done.
    rewrite (Hadv g1), (Hadv g2) by (rewrite !elem_of_cons; auto).
    cbn [mbind option_bind fst snd].
    cbn [fmap list_fmap] in Hnd.
    apply NoDup_cons in Hnd as [_ [_ Hnd]%NoDup_cons].
    apply StronglySorted_inv in Hsorted as [[Hsorted _]%StronglySorted_inv _].
    apply Forall_cons in Hids as [[Hw1 Hr1] Hids].
    apply Forall_cons in Hids as [[Hw2 Hr2] Hids].
    match goal with
    | |- context [pairGroups adv ?f _] =>
        destruct (IH f) as (tl & -> & Htl & Hun); [|done|done|done|]
    end.
    { intros g Hg. apply Hadv. rewrite !elem_of_cons. auto. }
    cbn [mbind option_bind]. eexists; split; [reflexivity|].
    rewrite !fmap_app, !Forall_app.
    rewrite !pushPairing_spec by done. rewrite Htl.
    split_and!; [done | apply pushPairing_unplayed.. | done].
Qed.

(** C3: for groups with distinct names that are well formed and whose
    player ids are not empty, and for a collation that compares
    consistently, the builder takes the groups in the order of their
    names (the same groups, sorted by name), in consecutive pairs, and
    for each pair [(G1, G2)] emits [G1]'s winner against [G2]'s
    runner-up and then [G2]'s winner against [G1]'s runner-up,
    skipping a match whose winner or runner-up is undefined; the
    emitted matches are unplayed; and a last group left without
    partner contributes no match. *)
Theorem buildKnockout_spec (fresh : nat) (gs : list Group) :
  (∀ s t, (localeCompare s t ≤ 0 ∨ localeCompare t s ≤ 0)%Z) →
  (∀ s t u, (localeCompare s t ≤ 0 → localeCompare t u ≤ 0 →
             localeCompare s u ≤ 0)%Z) →
  (∀ s t, (localeCompare s t < 0 ↔ 0 < localeCompare t s)%Z) →
  NoDup (g_name <$> gs) →
  Forall wellFormedGroup gs →
  Forall (λ g, "" ∉ g_players g) gs →
  groupsByName gs ≡ₚ gs ∧
  StronglySorted (cmpLe compareGroupNames) (groupsByName gs) ∧
  ∃ pairings,
    buildKnockout localeCompare fresh gs idx = Some pairings ∧
    participants <$> pairings
      = crossPairs localeCompare idx (groupsByName gs) ∧
    Forall unplayed pairings ∧
    (∀ paired g, groupsByName gs = paired ++ [g] →
                 Nat.Even (length paired) →
                 participants <$> pairings
                   = crossPairs localeCompare idx paired).
Proof.
  intros _ _ _ Hnd Hwf Hne.
  assert (Hall : Forall (λ g, is_Some (computeStandings localeCompare g idx))
                   gs).
  { eapply Forall_impl; [exact Hwf|]. intros g Hg.
    destruct (wellFormedGroup_standings localeCompare idx g Hg)
      as (table & -> & _). by eexists. }
  assert (Hids : Forall (λ g, standingsWinner localeCompare idx g ≠ Some "" ∧
                              standingsRunnerUp localeCompare idx g ≠ Some "")
                   gs).
  { apply Forall_forall. intros g Hg. rewrite Forall_forall in Hwf, Hne.
    apply advancers_nonempty; auto. }
  assert (Hperm : groupsByName gs ≡ₚ gs) by apply sortBy_Permutation.
  split; [done|]. split; [apply groupsByName_sorted|].
  unfold buildKnockout.
  destruct (collectAdvancers_spec gs ∅ Hnd Hall) as (adv & -> & Hadv & _).
  cbn [mbind option_bind].
  destruct (pairGroups_spec adv (groupsByName gs) fresh)
    as (pairings & Hp & Hpart & Hun).
  - intros g Hg. apply Hadv. by rewrite <- Hperm.
  - by rewrite Hperm.
  - apply groupsByName_sorted.
  - by rewrite Hperm.
  - unfold groupsByName, compareGroupNames in Hp.
    rewrite (sortBy_fmap g_name byteCompare) in Hp.
    exists pairings. split_and!; [done..|].
    intros paired g Heq Hev. rewrite Hpart, Heq.
    by apply crossPairs_drop_unpaired.
Qed.

End KnockoutProperties.

Lemma buildKnockout_spec_witness :
  let idx : gmap string Player :=
    list_to_map ((λ n, (n, mkPlayer n n 1)) <$>
                 ["A1"; "A2"; "B1"; "C1"; "C2"; "C3"; "C4"]) in
  let GA := mkGroup "A" ["A1"; "A2"]
    [ mkMatch 1 (Some "A1") (Some "A2") (Some 21%Z) (Some 10%Z) (Some true) ] in
  let GB := mkGroup "B" ["B1"] [] in
  let GC := mkGroup "C" ["C1"; "C2"; "C3"; "C4"]
    [ mkMatch 3 (Some "C1") (Some "C2") (Some 21%Z) (Some 5%Z) (Some true);
      mkMatch 4 (Some "C3") (Some "C4") None None None ] in
  ∃ pairings,
    buildKnockout byteCompare 5 [GC; GB; GA] idx = Some pairings ∧
    participants <$> pairings = [(Some "B1", Some "A2")].
Proof.
  intros idx GA GB GC.
  destruct (buildKnockout_spec byteCompare idx 5 [GC; GB; GA])
    as (_ & _ & pairings & Hbuilt & Hpairs & _).
  - apply byteCompare_total.
  - apply byteCompare_trans.
  - apply byteCompare_sign.
  - compute_done.
  - apply Forall_forall. intros g Hg.
    repeat (apply elem_of_cons in Hg as [->|Hg]);
      [..|by apply elem_of_nil in Hg];
      (split; [compute_done|]);
      apply Forall_forall; intros m Hm; cbn in Hm;
      repeat (apply elem_of_cons in Hm as [->|Hm]);
      try (by apply elem_of_nil in Hm);
      intros Hc; try done;
      (split; [split; [done | eexists _, _; done]
              | eexists _, _; split_and!; [done.. | set_solver | set_solver]]).
  - repeat constructor; cbn; set_solver.
  - exists pairings. split; [exact Hbuilt|].
    rewrite Hpairs. vm_compute. reflexivity.
Defined.

(** ** Properties of the bracket as the application drives it *)

Lemma replaceMatch_length (mws : Match) (ms : list Match) :
  length (replaceMatch mws ms) = length ms.
Proof. unfold replaceMatch. by rewrite length_fmap. Qed.

(** Saving a score never takes a completion mark away. *)
Lemma replaceMatch_allCompleted (mws : Match) (ms : list Match) :
  allCompleted ms = true → allCompleted (replaceMatch mws ms) = true.
Proof.
  rewrite !allCompleted_Forall. unfold replaceMatch.
  rewrite Forall_fmap. intros Hall. eapply Forall_impl; [exact Hall|].
  intros m Hm; cbn. by case_bool_decide.
Qed.

Lemma updateRounds_length (ri : nat) (mws : Match) (rs : list (list Match)) :
  length (updateRounds ri mws rs) = length rs.
Proof. unfold updateRounds. by rewrite length_imap. Qed.

Lemma updateRounds_lookup (ri : nat) (mws : Match) (rs : list (list Match))
    (k : nat) :
  updateRounds ri mws rs !! k =
  (λ r, if bool_decide (k = ri) then replaceMatch mws r else r) <$> rs !! k.
Proof. unfold updateRounds. by rewrite list_lookup_imap. Qed.

Lemma updateRounds_keeps (ri : nat) (mws : Match) (rs : list (list Match))
    (k : nat) (r : list Match) :
  rs !! k = Some r →
  ∃ r', updateRounds ri mws rs !! k = Some r' ∧
        length r' = length r ∧
        (allCompleted r = true → allCompleted r' = true).
Proof.
  intros Hr. rewrite updateRounds_lookup, Hr; cbn.
  eexists; split; [reflexivity|].
  case_bool_decide; [|done].
  split; [apply replaceMatch_length | apply replaceMatch_allCompleted].
Qed.

(** The three shapes of the state after [submitKnockoutScore]. *)
Lemma submitKnockoutScore_cases (ri : nat) (mws : Match) (s s' : AppState) :
  submitKnockoutScore ri mws s = Some s' →
  let next := updateRounds ri mws (rounds s) in
  ∃ r, next !! ri = Some r ∧
       groups s' = groups s ∧ players s' = players s ∧ mode s' = mode s ∧
       target s' = target s ∧ bracketSkin s' = bracketSkin s ∧
       ((allCompleted r = false ∧ rounds s' = next ∧
         stage s' = stage s ∧ champion s' = champion s) ∨
        (allCompleted r = true ∧ length r = 1 ∧ rounds s' = next ∧
         stage s' = StChampion) ∨
        (allCompleted r = true ∧ length r ≠ 1 ∧
         rounds s' = next ++ [pairConsecutive (nextUid s) (winnerOf <$> r)] ∧
         stage s' = stage s ∧ champion s' = champion s)).
Proof.
  intros Hs. cbn zeta. unfold submitKnockoutScore in Hs.
  set (next := updateRounds ri mws (rounds s)) in *.
  destruct (next !! ri) as [r|] eqn:Hr; [|done]. cbn in Hs.
  exists r. split; [done|].
  destruct (allCompleted r) eqn:Hc.
  - case_bool_decide as Hone; rewrite length_fmap in Hone;
      injection Hs as <-; cbn; split_and!; try done.
    + right; left. done.
    + right; right. done.
  - injection Hs as <-; cbn; split_and!; try done. left. done.
Qed.

(** No round is skipped: a submission adds at most one round, and that
    only behind the existing ones, which keep their sizes. *)
Lemma submitKnockoutScore_adds_at_most_one (ri : nat) (mws : Match)
    (s s' : AppState) :
  submitKnockoutScore ri mws s = Some s' →
  (length (rounds s') = length (rounds s) ∨
   length (rounds s') = S (length (rounds s))) ∧
  ∀ k r, rounds s !! k = Some r →
         ∃ r', rounds s' !! k = Some r' ∧ length r' = length r.
Proof.
  intros (r & _ & _ & _ & _ & _ & _ & Hcases)%submitKnockoutScore_cases.
  assert (Hkeep : ∀ k r0, rounds s !! k = Some r0 →
            ∃ r', updateRounds ri mws (rounds s) !! k = Some r' ∧
                  length r' = length r0).
  { intros k r0 Hk.
    destruct (updateRounds_keeps ri mws _ _ _ Hk) as (r' & ? & ? & _). eauto. }
  destruct Hcases as [(_ & -> & _) | [(_ & _ & -> & _) | (_ & _ & -> & _)]].
  - rewrite updateRounds_length. auto.
  - rewrite updateRounds_length. auto.
  - rewrite length_app, updateRounds_length; cbn. split; [right; lia|].
    intros k r0 Hk. destruct (Hkeep k r0 Hk) as (r' & Hr' & ?).
    exists r'. split; [|done]. by apply lookup_app_l_Some.
Qed.

(** The champion stage is terminal for score submissions: once in it,
    a submission leaves the stage there; and a submission changes the
    stage only by entering the champion stage. *)
Lemma submitKnockoutScore_stage (ri : nat) (mws : Match) (s s' : AppState) :
  submitKnockoutScore ri mws s = Some s' →
  (stage s = StChampion → stage s' = StChampion) ∧
  (stage s' = stage s ∨ stage s' = StChampion).
Proof.
  intros (r & _ & _ & _ & _ & _ & _ & Hcases)%submitKnockoutScore_cases.
  destruct Hcases as [(_ & _ & -> & _) | [(_ & _ & _ & ->) | (_ & _ & _ & -> & _)]];
    auto.
Qed.

Lemma roundsDerived_short (rs : list (list Match)) :
  length rs ≤ 1 → roundsDerivedFromCompletedRounds rs.
Proof.
  intros Hlen k r Hr. apply lookup_lt_Some in Hr. lia.
Qed.

Lemma roundsDerived_updateRounds (ri : nat) (mws : Match)
    (rs : list (list Match)) :
  roundsDerivedFromCompletedRounds rs →
  roundsDerivedFromCompletedRounds (updateRounds ri mws rs).
Proof.
  intros Hinv k r Hr.
  rewrite updateRounds_lookup in Hr.
  destruct (rs !! S k) as [r0|] eqn:Hr0; [|done].
  destruct (Hinv k r0 Hr0) as (j & src & Hj & Hsrc & Hdone & Hlen).
  destruct (updateRounds_keeps ri mws rs j src Hsrc)
    as (src' & Hsrc' & Hlen' & Hdone').
  exists j, src'. split_and!; [done | done | by apply Hdone' |].
  rewrite Hlen'. rewrite <- Hlen. cbn in Hr. injection Hr as <-.
  case_bool_decide; [apply replaceMatch_length | done].
Qed.

Lemma roundsDerived_snoc (rs : list (list Match)) (ri fresh : nat)
    (r : list Match) :
  roundsDerivedFromCompletedRounds rs →
  rs !! ri = Some r → allCompleted r = true →
  roundsDerivedFromCompletedRounds
    (rs ++ [pairConsecutive fresh (winnerOf <$> r)]).
Proof.
  intros Hinv Hr Hdone k r' Hr'.
  destruct (decide (S k < length rs)) as [Hlt|Hge].
  - rewrite lookup_app_l in Hr' by done.
    destruct (Hinv k r' Hr') as (j & src & Hj & Hsrc & ? & ?).
    exists j, src. split_and!; try done. by apply lookup_app_l_Some.
  - assert (S k = length rs) as Hk.
    { apply lookup_lt_Some in Hr'. rewrite length_app in Hr'; cbn in Hr'.
      lia. }
    rewrite Hk, list_lookup_middle in Hr' by done. injection Hr' as <-.
    exists ri, r. split_and!; [| by apply lookup_app_l_Some | done |].
    + apply lookup_lt_Some in Hr. lia.
    + by rewrite pairConsecutive_length, length_fmap.
Qed.

Lemma handleSetup_cases (names : list string) (m : Mode) (rand : nat → nat)
    (s : AppState) :
  let s' := handleSetup names m rand s in
  (rounds s' = rounds s ∧ groups s' = groups s) ∨
  rounds s' = [] ∨
  (groups s' = [] ∧ length (rounds s') = 1).
Proof.
  unfold handleSetup. destruct m; case_bool_decide; cbn; auto.
Qed.

Lemma updateGroupMatch_completed (name : string) (mws : Match) (s : AppState) :
  groupsCompleted s → groupsCompleted (updateGroupMatch name mws s).
Proof.
  unfold groupsCompleted, updateGroupMatch; cbn.
  rewrite Forall_fmap. intros Hall. eapply Forall_impl; [exact Hall|].
  intros g Hg; cbn. case_bool_decide; [done|]. cbn.
  by apply replaceMatch_allCompleted.
Qed.

Section AppProperties.

Variable localeCompare : string → string → Z.

Lemma advanceToKnockout_cases (s s' : AppState) :
  advanceToKnockout localeCompare s = Some s' →
  s' = s ∨ (groups s' = groups s ∧ length (rounds s') = 1).
Proof.
  unfold advanceToKnockout. intros Hs.
  destruct (buildKnockout _ _ _ _) as [pairings|]; [|done]. cbn in Hs.
  case_bool_decide; injection Hs as <-; cbn; auto.
Qed.

Lemma run_reachable (s s' : AppState) (es : list Event) :
  reachable localeCompare s → run localeCompare s es = Some s' →
  reachable localeCompare s'.
Proof.
  intros Hs. revert s Hs.
  induction es as [|e es IH]; intros s Hs Hrun.
  - by injection Hrun as <-.
  - cbn in Hrun.
    destruct (dispatch localeCompare s e) as [s1|] eqn:He; [|done].
    eapply IH; [|exact Hrun]. by eapply reachable_step.
Qed.

(** In every state the application reaches, knockout rounds exist
    only with every match of every group completed: the "Generate
    Knockout Bracket" button is the only way from groups to rounds
    and it is disabled until then. *)
Lemma reachable_firstRoundAfterGroups (s : AppState) :
  reachable localeCompare s → firstRoundAfterGroups s.
Proof.
  induction 1 as [|s e s' Hs IH He]; [by intros []|].
  unfold firstRoundAfterGroups, groupsCompleted in *.
  destruct e; cbn in He; repeat case_bool_decide; simplify_eq/=;
    try done; try (by apply IH).
  - destruct (handleSetup_cases names m rand s) as [[-> ->]|[->|[-> _]]];
      [done | done | by intros _; constructor].
  - destruct (groups s !! groupIndex) as [g|]; [|done]. cbn in He.
    destruct (g_matches g !! matchIndex) as [m|]; [|done]. cbn in He.
    destruct (saveScore _ _ _ _) as [res|]; [|done].
    injection He as <-. intros Hr.
    by apply updateGroupMatch_completed, IH.
  - match goal with H : _ ∧ _ |- _ => destruct H as (_ & _ & _ & Hall) end.
    apply advanceToKnockout_cases in He as [->|[-> _]]; [done|].
    intros _. apply Forall_forall. intros g Hg.
    rewrite forallb_forall in Hall. apply Hall. by apply list_elem_of_In.
  - destruct (rounds s !! roundIndex) as [r|]; [|done]. cbn in He.
    destruct (r !! matchIndex) as [m|]; [|done]. cbn in He.
    destruct (saveScore _ _ _ _) as [res|]; [|done]. cbn in He.
    apply submitKnockoutScore_cases in He as (_ & _ & -> & _).
    intros _. apply IH. tauto.
Qed.

(** In every state the application reaches, each round after the
    first was derived from some earlier round whose matches are all
    completed, and has half its size. *)
Lemma reachable_roundsDerived (s : AppState) :
  reachable localeCompare s →
  roundsDerivedFromCompletedRounds (rounds s).
Proof.
  induction 1 as [|s e s' Hs IH He];
    [apply roundsDerived_short; cbn; lia|].
  destruct e; cbn in He; repeat case_bool_decide; simplify_eq/=;
    try done.
  - destruct (handleSetup_cases names m rand s) as [[-> _]|[->|[_ Hlen]]];
      [done | apply roundsDerived_short; cbn; lia |].
    apply roundsDerived_short. lia.
  - destruct (groups s !! groupIndex) as [g|]; [|done]. cbn in He.
    destruct (g_matches g !! matchIndex) as [m|]; [|done]. cbn in He.
    destruct (saveScore _ _ _ _) as [res|]; [|done].
    by injection He as <-.
  - apply advanceToKnockout_cases in He as [->|[_ Hlen]]; [done|].
    apply roundsDerived_short. lia.
  - destruct (rounds s !! roundIndex) as [r|]; [|done]. cbn in He.
    destruct (r !! matchIndex) as [m|]; [|done]. cbn in He.
    destruct (saveScore _ _ _ _) as [res|]; [|done]. cbn in He.
    apply submitKnockoutScore_cases in He
      as (r' & Hr' & _ & _ & _ & _ & _ & Hcases).
    pose proof (roundsDerived_updateRounds roundIndex res _ IH) as Hnext.
    destruct Hcases as [(_ & -> & _) | [(_ & _ & -> & _) | (Hdone & _ & -> & _)]];
      [done | done |].
    by eapply roundsDerived_snoc.
Qed.

End AppProperties.

(** A submission to the last round keeps the invariant of the
    specification: the round it may append stands behind the round that
    has just been completed. *)
Lemma submit_to_last_round_keeps_order (ri : nat) (mws : Match)
    (s s' : AppState) :
  roundsFollowCompletedRounds (rounds s) →
  S ri = length (rounds s) →
  submitKnockoutScore ri mws s = Some s' →
  roundsFollowCompletedRounds (rounds s').
Proof.
  intros Hinv Hlast (r & Hr & _ & _ & _ & _ & _ & Hcases)%submitKnockoutScore_cases.
  assert (Hnext : roundsFollowCompletedRounds
                    (updateRounds ri mws (rounds s))).
  { intros k prev r' Hk HSk.
    rewrite updateRounds_lookup in Hk, HSk.
    destruct (rounds s !! k) as [prev0|] eqn:Hprev0; [|done].
    destruct (rounds s !! S k) as [r0|] eqn:Hr0; [|done].
    cbn in Hk. injection Hk as <-.
    pose proof (Hinv k prev0 r0 Hprev0 Hr0). clear HSk.
    case_bool_decide; [by apply replaceMatch_allCompleted | done]. }
  destruct Hcases as [(_ & -> & _) | [(_ & _ & -> & _) | (Hdone & _ & -> & _)]];
    [done | done |].
  intros k prev r' Hk HSk.
  pose proof (lookup_lt_Some _ _ _ HSk) as Hlt.
  rewrite length_app, updateRounds_length in Hlt; cbn in Hlt.
  rewrite lookup_app_l in Hk by (rewrite updateRounds_length; lia).
  destruct (decide (S k < length (rounds s))) as [Hin|Hout].
  - rewrite lookup_app_l in HSk by (rewrite updateRounds_length; lia).
    by eapply Hnext.
  - assert (k = ri) as -> by lia. congruence.
Qed.

(** C7, on the code: the session [semifinalsPlayed] followed by
    [semifinalSavedAgain] runs, so its final state is one the
    application reaches; before the last command the bracket satisfies
    the invariant, after it a third round stands behind a second round
    whose only match has not been played. *)
Theorem later_round_behind_incomplete_round :
  ∃ s3 s4 r0 r1 r2,
    run byteCompare initialState semifinalsPlayed = Some s3 ∧
    dispatch byteCompare s3 semifinalSavedAgain = Some s4 ∧
    reachable byteCompare s4 ∧
    roundsFollowCompletedRounds (rounds s3) ∧
    rounds s4 = [r0; r1; r2] ∧
    allCompleted r1 = false ∧
    ¬ roundsFollowCompletedRounds (rounds s4).
Proof.
  eexists _, _, _, _, _.
  split; [vm_compute; reflexivity|].
  split; [vm_compute; reflexivity|].
  split_and!.
  - eapply (reachable_step byteCompare _ semifinalSavedAgain).
    + eapply (run_reachable byteCompare initialState _ semifinalsPlayed);
        [constructor | vm_compute; reflexivity].
    + vm_compute; reflexivity.
  - intros k prev r Hk HSk.
    destruct k as [|[|k]]; cbn in Hk, HSk; simplify_eq; reflexivity.
  - reflexivity.
  - reflexivity.
  - intros Hinv. specialize (Hinv 1 _ _ eq_refl eq_refl). done.
Qed.

(** C9, on the code: in the same session the bracket has advanced past
    the semifinals (the final exists) when the first semifinal is saved
    again; the submission derives the final a second time and appends
    it as a third round with the same pairing. *)
Theorem resubmission_regenerates_round :
  ∃ s3 s4 semis semis' final again,
    run byteCompare initialState semifinalsPlayed = Some s3 ∧
    dispatch byteCompare s3 semifinalSavedAgain = Some s4 ∧
    stage s3 = StKnockout ∧
    rounds s3 = [semis; final] ∧
    rounds s4 = [semis'; final; again] ∧
    participants <$> again = participants <$> final ∧
    participants <$> final = [(Some "1", Some "0")] ∧
    m_id <$> again ≠ m_id <$> final.
Proof.
  eexists _, _, _, _, _, _.
  split; [vm_compute; reflexivity|].
  split; [vm_compute; reflexivity|].
  split_and!; try reflexivity. done.
Qed.

(** ** Properties of [chunk] *)

Lemma chunkCount_step (m size : nat) :
  0 < size →
  (m `mod` size = 0 →
     chunkCount m size * size = m ∧
     chunkCount (S m) size = S (chunkCount m size)) ∧
  (m `mod` size ≠ 0 → chunkCount (S m) size = chunkCount m size).
Proof.
  intros Hsize. unfold chunkCount.
  pose proof (Nat.div_mod_eq m size) as Hm.
  pose proof (Nat.mod_upper_bound m size ltac:(lia)) as Hr.
  set (q := m `div` size) in *. set (r := m `mod` size) in *.
  split; intros Hcase.
  - assert (Hq : (m + size - 1) `div` size = q).
    { symmetry. apply (Nat.div_unique _ _ _ (size - 1)); lia. }
    assert (HSq : (S m + size - 1) `div` size = S q).
    { symmetry. apply (Nat.div_unique _ _ _ 0); lia. }
    rewrite Hq, HSq. split; lia.
  - assert (Hq : (m + size - 1) `div` size = S q).
    { symmetry. apply (Nat.div_unique _ _ _ (r - 1)); lia. }
    assert (HSq : (S m + size - 1) `div` size = S q).
    { symmetry. apply (Nat.div_unique _ _ _ r); lia. }
    by rewrite Hq, HSq.
Qed.

(** The reduction of [chunk] over the first [m] indices. *)
Lemma chunk_loop {A : Type} (arr : list A) (size m : nat) :
  0 < size →
  foldl (λ acc i,
           if bool_decide (size ≠ 0 ∧ i mod size ≠ 0) then acc
           else acc ++ [take size (drop i arr)])
        [] (seq 0 m)
  = (λ j, take size (drop (j * size) arr)) <$> seq 0 (chunkCount m size).
Proof.
  intros Hsize. induction m as [|m IH].
  { unfold chunkCount. rewrite Nat.div_small by lia. done. }
  rewrite seq_S, foldl_snoc, IH; cbn [Nat.add].
  destruct (chunkCount_step m size Hsize) as [Hzero Hnonzero].
  case_bool_decide as Hcase.
  - rewrite Hnonzero by tauto. done.
  - assert (m `mod` size = 0) as Hmod by lia.
    destruct (Hzero Hmod) as [Hmul ->].
    rewrite seq_S, fmap_app; cbn [Nat.add fmap list_fmap].
    by rewrite Hmul.
Qed.

Lemma chunk_closed_form {A : Type} (arr : list A) (size : nat) :
  0 < size →
  chunk arr size
  = (λ j, take size (drop (j * size) arr))
      <$> seq 0 (chunkCount (length arr) size).
Proof. apply chunk_loop. Qed.

Lemma concat_slices {A : Type} (arr : list A) (size k : nat) :
  concat ((λ j, take size (drop (j * size) arr)) <$> seq 0 k)
  = take (k * size) arr.
Proof.
  induction k as [|k IH]; [done|].
  rewrite seq_S, fmap_app, concat_app, IH; cbn [Nat.add fmap list_fmap concat].
  rewrite app_nil_r, take_take_drop. f_equal. lia.
Qed.

Lemma chunkCount_covers (n size : nat) :
  0 < size →
  n ≤ chunkCount n size * size ∧
  ∀ i, i < chunkCount n size → i * size < n.
Proof.
  intros Hsize. unfold chunkCount.
  pose proof (Nat.div_mod_eq (n + size - 1) size) as Hm.
  pose proof (Nat.mod_upper_bound (n + size - 1) size ltac:(lia)) as Hr.
  set (q := (n + size - 1) `div` size) in *.
  split; [nia|]. intros i Hi.
  assert (i * size + size ≤ q * size) by nia. nia.
Qed.

(** X1: for a positive slice size, [chunk] cuts the list into
    consecutive slices: slice [i] is the [size] elements from position
    [i * size]; every slice is non-empty and at most [size] long; there
    are [ceil(n / size)] of them; and put back together they give the
    list. *)
Theorem chunk_spec {A : Type} (arr : list A) (size : nat) :
  0 < size →
  length (chunk arr size) = chunkCount (length arr) size ∧
  (∀ i c, chunk arr size !! i = Some c →
          c = take size (drop (i * size) arr) ∧ 0 < length c ≤ size) ∧
  concat (chunk arr size) = arr.
Proof.
  intros Hsize. rewrite chunk_closed_form by done.
  destruct (chunkCount_covers (length arr) size Hsize) as [Hcover Hlast].
  split_and!.
  - by rewrite length_fmap, length_seq.
  - intros i c Hc. rewrite list_lookup_fmap in Hc.
    destruct (seq 0 _ !! i) as [j|] eqn:Hj; [|done].
    apply lookup_seq in Hj as [-> Hlt]. cbn in *. injection Hc as <-.
    split; [done|]. rewrite length_take, length_drop.
    specialize (Hlast i Hlt). lia.
  - rewrite concat_slices. by apply take_ge.
Qed.

Lemma chunk_spec_witness :
  concat (chunk ["a"; "b"; "c"; "d"; "e"] 2) = ["a"; "b"; "c"; "d"; "e"].
Proof. apply (chunk_spec ["a"; "b"; "c"; "d"; "e"] 2). lia. Defined.

(** X2: when the slice size divides the length, every slice is full:
    [chunk] gives [n / size] slices of exactly [size] elements. *)
Theorem chunk_exact {A : Type} (arr : list A) (size k : nat) :
  0 < size → length arr = k * size →
  length (chunk arr size) = k ∧
  Forall (λ c, length c = size) (chunk arr size).
Proof.
  intros Hsize Hlen. rewrite chunk_closed_form by done.
  assert (Hk : chunkCount (length arr) size = k).
  { unfold chunkCount. symmetry.
    apply (Nat.div_unique _ _ _ (size - 1)); lia. }
  rewrite Hk. split.
  - by rewrite length_fmap, length_seq.
  - apply Forall_fmap, Forall_forall. intros j [_ Hj]%elem_of_seq. cbn.
    rewrite length_take, length_drop. nia.
Qed.

Lemma chunk_exact_witness :
  length (chunk ["a"; "b"; "c"; "d"; "e"; "f"; "g"; "h"] 4) = 2.
Proof.
  apply (chunk_exact ["a"; "b"; "c"; "d"; "e"; "f"; "g"; "h"] 4 2);
    [lia | reflexivity].
Defined.

(** ** Properties of [shuffle] *)

Lemma delete_insert_same {A : Type} (l : list A) (i : nat) (x : A) :
  delete i (<[i:=x]> l) = delete i l.
Proof.
  rewrite !delete_take_drop.
  rewrite take_insert_ge by lia. by rewrite drop_insert_lt by lia.
Qed.

Lemma swap_Permutation {A : Type} (a : list A) (i j : nat) :
  swap a i j ≡ₚ a.
Proof.
  unfold swap.
  destruct (a !! i) as [x|] eqn:Hx; [|done].
  destruct (a !! j) as [y|] eqn:Hy; [|done].
  destruct (decide (i = j)) as [->|Hne].
  { simplify_eq. rewrite list_insert_insert_eq. by rewrite list_insert_id. }
  set (b := <[i:=y]> a).
  assert (Hbi : b !! i = Some y).
  { apply list_lookup_insert_eq. by eapply lookup_lt_Some. }
  assert (Hbj : b !! j = Some y).
  { unfold b. by rewrite list_lookup_insert_ne. }
  assert (Hcj : <[j:=x]> b !! j = Some x).
  { apply list_lookup_insert_eq. by eapply lookup_lt_Some. }
  rewrite (delete_Permutation _ _ _ Hcj), delete_insert_same.
  rewrite (delete_Permutation a i x Hx).
  apply Permutation_skip.
  apply (inj (cons y)).
  rewrite <- (delete_Permutation _ _ _ Hbj).
  rewrite (delete_Permutation _ _ _ Hbi). unfold b.
  by rewrite delete_insert_same.
Qed.

Lemma shuffleLoop_Permutation {A : Type} (rand : nat → nat) (k i : nat)
    (a : list A) :
  shuffleLoop rand k i a ≡ₚ a.
Proof.
  revert k a. induction i as [|i IH]; intros k a; [done|].
  cbn [shuffleLoop]. rewrite IH. apply swap_Permutation.
Qed.

(** X3: whatever the random draws, [shuffle] returns a rearrangement of
    its input: the same elements, each as many times, hence the same
    length. *)
Theorem shuffle_Permutation {A : Type} (rand : nat → nat) (k : nat)
    (arr : list A) :
  shuffle rand k arr ≡ₚ arr ∧ length (shuffle rand k arr) = length arr.
Proof.
  assert (shuffle rand k arr ≡ₚ arr) as Hperm
    by apply shuffleLoop_Permutation.
  split; [done | by rewrite Hperm].
Qed.

(** ** Properties of [isPowerOfTwo] *)

Lemma land_pred_pow2 (k : Z) : (0 ≤ k)%Z → Z.land (2 ^ k) (2 ^ k - 1) = 0%Z.
Proof.
  intros Hk. replace (2 ^ k - 1)%Z with (Z.ones k)
    by (rewrite Z.ones_equiv; lia).
  rewrite Z.land_ones by done. apply Z_mod_same_full.
Qed.

Lemma land_pred_not_pow2 (n : Z) :
  (0 < n)%Z → n ≠ (2 ^ Z.log2 n)%Z → Z.land n (n - 1) ≠ 0%Z.
Proof.
  intros Hpos Hne Hland.
  pose proof (Z.log2_spec n Hpos) as [Hlo Hhi].
  pose proof (Z.log2_nonneg n) as Hk.
  assert (Hlog : Z.log2 (n - 1) = Z.log2 n).
  { apply Z.log2_unique; [done|]. lia. }
  assert (Hbit : Z.testbit (Z.land n (n - 1)) (Z.log2 n) = true).
  { rewrite Z.land_spec, Z.bit_log2 by done.
    rewrite <- Hlog. rewrite Z.bit_log2 by lia. done. }
  rewrite Hland, Z.bits_0 in Hbit. done.
Qed.

Lemma toInt32_small (n : Z) :
  (- 2 ^ 31 ≤ n < 2 ^ 31)%Z → toInt32 n = n.
Proof.
  intros Hn. unfold toInt32. rewrite Z.mod_small by lia. lia.
Qed.

Lemma toInt32_large (n : Z) :
  (2 ^ 31 ≤ n < 2 ^ 32)%Z → toInt32 n = (n - 2 ^ 32)%Z.
Proof.
  intros Hn. unfold toInt32.
  replace (n + 2 ^ 31)%Z with ((n - 2 ^ 31) + 1 * 2 ^ 32)%Z by lia.
  rewrite Z.mod_add by lia. rewrite Z.mod_small by lia. lia.
Qed.

Lemma pow2_not_between (n k : Z) :
  (2 ^ 31 < n < 2 ^ 32)%Z → (0 ≤ k)%Z → n ≠ (2 ^ k)%Z.
Proof.
  intros Hn Hk ->. destruct (decide (k ≤ 31)%Z).
  - pose proof (Z.pow_le_mono_r 2 k 31). lia.
  - pose proof (Z.pow_le_mono_r 2 32 k). lia.
Qed.

(** X4: on a positive number below [2^32], [isPowerOfTwo] answers true
    exactly for the powers of two.  It also answers true for 0, which
    is why its caller checks the range separately, and, the operator
    being a 32-bit one, for [2^32 + 1]. *)
Theorem isPowerOfTwo_spec (n : Z) :
  (0 < n < 2 ^ 32)%Z →
  (isPowerOfTwo n = true ↔ ∃ k, (0 ≤ k)%Z ∧ n = (2 ^ k)%Z) ∧
  isPowerOfTwo 0 = true ∧
  isPowerOfTwo (2 ^ 32 + 1) = true.
Proof.
  intros [Hpos Hlt]. split; [|by split; vm_compute].
  unfold isPowerOfTwo. rewrite bool_decide_eq_true.
  destruct (decide (n < 2 ^ 31)%Z) as [Hsmall|Hbig].
  - rewrite !toInt32_small by lia. split.
    + intros Hland. exists (Z.log2 n). split; [apply Z.log2_nonneg|].
      destruct (decide (n = 2 ^ Z.log2 n)%Z) as [|Hne]; [done|].
      by destruct (land_pred_not_pow2 n Hpos Hne).
    + intros (k & Hk & ->). by apply land_pred_pow2.
  - destruct (decide (n = 2 ^ 31)%Z) as [->|Hne].
    + split; [|by intros _; vm_compute].
      intros _. exists 31%Z. split; [lia | done].
    + rewrite !toInt32_large by lia. split.
      * intros Hland.
        assert (Z.land (n - 2 ^ 32) (n - 1 - 2 ^ 32) < 0)%Z
          by (apply Z.land_neg; lia).
        lia.
      * intros (k & Hk & Hn).
        by destruct (pow2_not_between n k); [lia | |].
Qed.

Lemma isPowerOfTwo_spec_witness : isPowerOfTwo 16 = true.
Proof.
  assert (0 < 16 < 2 ^ 32)%Z as Hrange by lia.
  apply (proj1 (isPowerOfTwo_spec 16 Hrange)).
  exists 4%Z. split; [lia | reflexivity].
Defined.

(** ** Properties of the first single-elimination round *)

Lemma Even_two_more (n : nat) : Nat.Even (S (S n)) → Nat.Even n.
Proof. intros [k Hk]. exists (k - 1). lia. Qed.

Lemma pairConsecutive_sides (fresh : nat) (xs : list (option string)) :
  Nat.Even (length xs) →
  concat (sides <$> pairConsecutive fresh xs) = xs.
Proof.
  revert fresh. induction xs as [| x | x y xs IH] using list_pair_ind;
    intros fresh Hev.
  - done.
  - destruct Hev as [k Hk]. cbn in Hk. lia.
  - cbn [pairConsecutive fmap list_fmap concat].
    rewrite IH by (by apply Even_two_more). done.
Qed.

Lemma pairConsecutive_ids (fresh : nat) (xs : list (option string)) :
  m_id <$> pairConsecutive fresh xs
  = seq fresh (length (pairConsecutive fresh xs)).
Proof.
  revert fresh. induction xs as [| x | x y xs IH] using list_pair_ind;
    intros fresh; [done.. |].
  cbn [pairConsecutive fmap list_fmap length seq]. by rewrite IH.
Qed.

Lemma pairConsecutive_unplayed (fresh : nat) (xs : list (option string)) :
  Forall unplayed (pairConsecutive fresh xs).
Proof.
  revert fresh. induction xs as [| x | x y xs IH] using list_pair_ind;
    intros fresh; cbn [pairConsecutive]; repeat constructor; auto.
Qed.

Lemma pairConsecutive_distinct (fresh : nat) (xs : list (option string)) :
  Nat.Even (length xs) → NoDup xs →
  Forall (λ m, m_a m ≠ m_b m) (pairConsecutive fresh xs).
Proof.
  revert fresh. induction xs as [| x | x y xs IH] using list_pair_ind;
    intros fresh Hev Hnd.
  - constructor.
  - destruct Hev as [k Hk]. cbn in Hk. lia.
  - cbn [pairConsecutive].
    apply NoDup_cons in Hnd as [Hx [_ Hnd]%NoDup_cons].
    constructor; [|by apply IH; [apply Even_two_more|]].
    cbn. intros ->. apply Hx. by left.
Qed.

(** X5: for an even number of ids the first single-elimination round
    has half as many matches, all unplayed, with consecutive fresh
    tokens as ids; the sides of its matches, read in order, are a
    rearrangement of the ids, so every id plays exactly once; and when
    the ids are distinct no match pairs a player with themselves. *)
Theorem buildSingleElimFirstRound_spec (rand : nat → nat) (k fresh : nat)
    (ids : list string) :
  Nat.Even (length ids) →
  let round := buildSingleElimFirstRound rand k fresh ids in
  2 * length round = length ids ∧
  concat (sides <$> round) ≡ₚ Some <$> ids ∧
  Forall unplayed round ∧
  m_id <$> round = seq fresh (length round) ∧
  (NoDup ids → Forall (λ m, m_a m ≠ m_b m) round).
Proof.
  intros Hev. cbn zeta. unfold buildSingleElimFirstRound.
  assert (Hperm : shuffle rand k ids ≡ₚ ids)
    by apply shuffleLoop_Permutation.
  assert (Hlen : length (shuffle rand k ids) = length ids)
    by (by rewrite Hperm).
  assert (Hev' : Nat.Even (length (Some <$> shuffle rand k ids))).
  { by rewrite length_fmap, Hlen. }
  split_and!.
  - rewrite pairConsecutive_length, length_fmap, Hlen.
    destruct Hev as [j ->].
    replace (2 * j + 1) with (1 + j * 2) by lia.
    rewrite Nat.div_add by done. cbn. lia.
  - rewrite pairConsecutive_sides by done. by rewrite Hperm.
  - apply pairConsecutive_unplayed.
  - apply pairConsecutive_ids.
  - intros Hnd. apply pairConsecutive_distinct; [done|].
    apply (NoDup_fmap_2 _). by rewrite Hperm.
Qed.

Lemma buildSingleElimFirstRound_spec_witness :
  2 * length (buildSingleElimFirstRound (λ n, n) 0 7 ["a"; "b"; "c"; "d"]) = 4.
Proof.
  apply (buildSingleElimFirstRound_spec (λ n, n) 0 7 ["a"; "b"; "c"; "d"]).
  exists 2. reflexivity.
Defined.

(** ** Properties of [handleSetup] *)

Lemma isPowerOfTwo_in_range (count : nat) :
  4 ≤ count ≤ 32 →
  isPowerOfTwo (Z.of_nat count) = true ↔ count ∈ singleCounts.
Proof.
  intros Hrange. unfold singleCounts.
  rewrite !elem_of_cons, elem_of_nil.
  do 33 (destruct count as [|count];
         [try lia;
          match goal with
          | |- isPowerOfTwo ?z = true ↔ _ =>
              let b := eval vm_compute in (isPowerOfTwo z) in
              change (isPowerOfTwo z) with b
          end; split; intros; (done || lia)|]).
  lia.
Qed.

Lemma single_guard (count : nat) :
  (isPowerOfTwo (Z.of_nat count) = false ∨ count < 4 ∨ 32 < count) ↔
  count ∉ singleCounts.
Proof.
  destruct (decide (4 ≤ count ≤ 32)) as [Hrange|Hout].
  - rewrite <- (isPowerOfTwo_in_range count Hrange).
    destruct (isPowerOfTwo _); split; intros; (done || lia || auto).
  - unfold singleCounts. rewrite !not_elem_of_cons. split.
    + intros _. split_and!; (lia || apply not_elem_of_nil).
    + intros _. lia.
Qed.

Lemma groups_guard (count : nat) :
  (count mod 4 ≠ 0 ∨ count < 8 ∨ 32 < count) ↔ count ∉ groupCounts.
Proof.
  unfold groupCounts. rewrite !not_elem_of_cons.
  assert (count ∉ @nil nat ↔ True) as -> by (split; [done | intros _; apply not_elem_of_nil]).
  destruct (decide (count ≤ 32)) as [Hle|Hgt]; [|lia].
  do 33 (destruct count as [|count]; [cbn; lia|]). lia.
Qed.

Lemma seedPlayers_length (fresh : nat) (shuffled : list string) :
  length (seedPlayers fresh shuffled) = length shuffled.
Proof. unfold seedPlayers. by rewrite length_imap. Qed.

Lemma buildGroups_length (fresh : nat) (chunks : list (list Player)) :
  length (buildGroups fresh chunks) = length chunks.
Proof. unfold buildGroups. by rewrite length_imap. Qed.

Lemma shuffle_length {A : Type} (rand : nat → nat) (k : nat) (arr : list A) :
  length (shuffle rand k arr) = length arr.
Proof.
  assert (shuffle rand k arr ≡ₚ arr) as -> by apply shuffleLoop_Permutation.
  done.
Qed.

(** X6: [handleSetup] always records the chosen mode and leaves the
    bracket skin off; it starts a single-elimination tournament exactly
    for 4, 8, 16 or 32 names (one first round of half as many matches,
    no groups, stage [knockout]) and a group tournament exactly for 8,
    12, ..., 32 names (a quarter as many groups, no rounds, stage
    [groups]); for every other count the tournament in progress is left
    as it was.  The target and the champion are never touched. *)
Theorem handleSetup_accepts (names : list string) (m : Mode)
    (rand : nat → nat) (s : AppState) :
  let s' := handleSetup names m rand s in
  let count := length names in
  mode s' = m ∧ bracketSkin s' = false ∧
  target s' = target s ∧ champion s' = champion s ∧
  match m with
  | ModeSingle =>
      if decide (count ∈ singleCounts)
      then stage s' = StKnockout ∧ groups s' = [] ∧
           length (players s') = count ∧
           ∃ r, rounds s' = [r] ∧ 2 * length r = count
      else sameTournament s s'
  | ModeGroups =>
      if decide (count ∈ groupCounts)
      then stage s' = StGroups ∧ rounds s' = [] ∧
           length (players s') = count ∧
           4 * length (groups s') = count
      else sameTournament s s'
  end.
Proof.
  cbn zeta. unfold handleSetup.
  destruct m.
  - pose proof (groups_guard (length names)) as Hguard.
    case_bool_decide as Hg; case_decide as Hin; try tauto;
      cbn [mode bracketSkin target champion stage rounds players groups];
      split_and!; try done.
    + by rewrite seedPlayers_length, shuffle_length.
    + rewrite buildGroups_length, chunk_closed_form by lia.
      rewrite length_fmap, length_seq, seedPlayers_length, shuffle_length.
      unfold groupCounts in Hin. rewrite !elem_of_cons, elem_of_nil in Hin.
      unfold chunkCount.
      destruct Hin as [->|[->|[->|[->|[->|[->|[->|[]]]]]]]]; reflexivity.
  - pose proof (single_guard (length names)) as Hguard.
    case_bool_decide as Hg; case_decide as Hin; try tauto;
      cbn [mode bracketSkin target champion stage rounds players groups];
      split_and!; try done.
    + by rewrite seedPlayers_length, shuffle_length.
    + eexists; split; [reflexivity|].
      unfold buildSingleElimFirstRound.
      rewrite pairConsecutive_length, length_fmap, shuffle_length,
        length_fmap, seedPlayers_length, shuffle_length.
      unfold singleCounts in Hin. rewrite !elem_of_cons, elem_of_nil in Hin.
      destruct Hin as [->|[->|[->|[->|[]]]]]; reflexivity.
Qed.

(** ** The standings calculator on arbitrary groups *)

Lemma fromEntries_lookup_None {V : Type} (es : list (string * V))
    (k : string) :
  fromEntries es !! k = None ↔ k ∉ es.*1.
Proof.
  induction es as [|[k' v'] es IH] using rev_ind.
  - cbn. rewrite lookup_empty. split; [intros _; apply not_elem_of_nil | done].
  - rewrite fromEntries_snoc, fmap_app, not_elem_of_app; cbn.
    rewrite lookup_insert_None, IH, not_elem_of_cons.
    split; [intros [? ?] | intros [? [? _]]]; split_and!;
      (done || apply not_elem_of_nil).
Qed.

Lemma fromEntries_lookup_Some {V : Type} (es : list (string * V))
    (k : string) (v : V) :
  fromEntries es !! k = Some v → (k, v) ∈ es.
Proof.
  induction es as [|[k' v'] es IH] using rev_ind; [done|].
  rewrite fromEntries_snoc, elem_of_app, list_elem_of_singleton; cbn.
  destruct (decide (k' = k)) as [->|Hne].
  - rewrite lookup_insert_eq. intros [= ->]. by right.
  - rewrite lookup_insert_ne by done. auto.
Qed.

Lemma rowIndex_keys (table : list Row) :
  (imap (λ i r, (r_id r, i)) table).*1 = r_id <$> table.
Proof.
  rewrite fmap_imap.
  rewrite (imap_ext _ (const r_id)) by done. by rewrite imap_const.
Qed.

(** [row[k]] is [undefined] exactly for the ids that are not in the
    table. *)
Lemma rowIndex_None (table : list Row) (k : string) :
  rowIndex table !! k = None ↔ k ∉ r_id <$> table.
Proof. unfold rowIndex. by rewrite fromEntries_lookup_None, rowIndex_keys. Qed.

(** A reference held by [row] points into the table. *)
Lemma rowIndex_bound (table : list Row) (k : string) (i : nat) :
  rowIndex table !! k = Some i → i < length table.
Proof.
  intros Hi%fromEntries_lookup_Some.
  apply elem_of_lookup_imap in Hi as (j & r & [= _ ->] & Hr).
  by eapply lookup_lt_Some.
Qed.

Lemma playMatch_None (row : gmap string nat) (st : list Row) (m : Match) :
  playMatch row st m = None ↔
  is_completed m = true ∧
  (row !! propKey (m_a m) = None ∨ row !! propKey (m_b m) = None).
Proof.
  unfold playMatch. destruct (is_completed m); [|naive_solver].
  destruct (row !! propKey (m_a m)), (row !! propKey (m_b m)); cbn;
    naive_solver.
Qed.

Lemma playAll_None (row : gmap string nat) (st : list Row) (ms : list Match) :
  playAll row st ms = None ↔
  Exists (λ m, is_completed m = true ∧
               (row !! propKey (m_a m) = None ∨
                row !! propKey (m_b m) = None)) ms.
Proof.
  revert st. induction ms as [|m ms IH]; intros st.
  - cbn. split; [done | by intros ?%Exists_nil].
  - cbn [playAll]. rewrite Exists_cons, <- (playMatch_None row st m).
    destruct (playMatch row st m) as [st1|]; cbn.
    + rewrite IH. naive_solver.
    + naive_solver.
Qed.

(** X7: as long as no completed match names, outside the players of
    the group, a property that a plain object inherits,
    [computeStandings] raises (a [TypeError]) exactly when some
    completed match names, on either side, a player that is not in the
    group; matches that are not completed are never looked at. *)
Theorem computeStandings_raises (lc : string → string → Z) (g : Group)
    (idx : gmap string Player) :
  Forall (readsOwnKeys (g_players g)) (g_matches g) →
  computeStandings lc g idx = None ↔
  Exists (strayMatch (g_players g)) (g_matches g).
Proof.
  intros _. unfold computeStandings.
  destruct (playAll _ _ _) as [st|] eqn:Hst; cbn.
  - split; [done|]. intros Hex. exfalso.
    assert (playAll (rowIndex (initialTable idx (g_players g)))
              (initialTable idx (g_players g)) (g_matches g) = None)
      as Hnone; [|congruence].
    apply playAll_None. eapply Exists_impl; [exact Hex|].
    intros m [Hc Hstray]. split; [done|].
    by rewrite !rowIndex_None, initialTable_ids.
  - split; [|done]. intros _.
    apply playAll_None in Hst. eapply Exists_impl; [exact Hst|].
    intros m [Hc Hnone]. split; [done|].
    by rewrite !rowIndex_None, initialTable_ids in Hnone.
Qed.

Lemma computeStandings_raises_witness :
  let g := mkGroup "X" ["A"; "B"]
    [ mkMatch 1 (Some "A") (Some "B") None None None;
      mkMatch 2 (Some "A") (Some "Z") (Some 21%Z) (Some 3%Z) (Some true) ] in
  computeStandings byteCompare g ∅ = None.
Proof.
  intros g.
  apply (computeStandings_raises byteCompare g ∅).
  - compute_done.
  - apply Exists_cons_tl, Exists_cons_hd. split; [done|].
    right. cbn. set_solver.
Defined.

Lemma stepRow_keeps (m : Match) (isA isB : bool) (r : Row) :
  r_id (stepRow m isA isB r) = r_id r ∧
  r_name (stepRow m isA isB r) = r_name r ∧
  (rowConsistent r → rowConsistent (stepRow m isA isB r)).
Proof.
  unfold stepRow, rowConsistent.
  destruct (is_completed m); [|done].
  destruct isA, isB, (scoreA_gt_scoreB m); cbn;
    (split; [done|]); (split; [done|]);
    intros (? & ? & ? & ? & ?); split_and!; (done || lia).
Qed.

(** Whatever the loop does, it does it row by row, and what it does to
    a row keeps the row's id and name and the consistency of its
    numbers. *)
Lemma playAll_keeps (Q : Row → Prop) (row : gmap string nat)
    (st st' : list Row) (ms : list Match) :
  (∀ m isA isB r, Q r → Q (stepRow m isA isB r)) →
  playAll row st ms = Some st' →
  length st' = length st ∧
  r_id <$> st' = r_id <$> st ∧
  (Forall Q st → Forall Q st').
Proof.
  intros HQ. revert st. induction ms as [|m ms IH]; intros st Hst.
  { cbn in Hst. by injection Hst as <-. }
  cbn [playAll] in Hst.
  destruct (playMatch row st m) as [st1|] eqn:Hst1; [|done]. cbn in Hst.
  destruct (IH st1 Hst) as (Hlen & Hids & HQ').
  assert (∀ i, ∃ isA isB, st1 !! i = stepRow m isA isB <$> st !! i)
    as Hpoint.
  { intros i. destruct (is_completed m) eqn:Hc.
    - unfold playMatch in Hst1. rewrite Hc in Hst1.
      destruct (row !! propKey (m_a m)) as [ia|] eqn:Ha; [|done].
      destruct (row !! propKey (m_b m)) as [ib|] eqn:Hb; [|done].
      destruct (playMatch_lookup row st m ia ib Hc Ha Hb)
        as (st1' & Hst1' & Hrows).
      unfold playMatch in Hst1'. rewrite Hc, Ha, Hb in Hst1'.
      rewrite Hst1 in Hst1'. injection Hst1' as <-. eauto.
    - rewrite playMatch_skip in Hst1 by done. injection Hst1 as <-.
      exists false, false. unfold stepRow. rewrite Hc.
      by destruct (st !! i). }
  assert (length st1 = length st) as Hlen1.
  { apply Nat.le_antisymm; apply Nat.nlt_ge; intros Hlt.
    - destruct (lookup_lt_is_Some_2 st1 (length st)) as [r Hr]; [lia|].
      destruct (Hpoint (length st)) as (a & b & Hp).
      rewrite Hr, lookup_ge_None_2 in Hp by lia. done.
    - destruct (lookup_lt_is_Some_2 st (length st1)) as [r Hr]; [lia|].
      destruct (Hpoint (length st1)) as (a & b & Hp).
      rewrite Hr, lookup_ge_None_2 in Hp by lia. done. }
  split_and!.
  - lia.
  - rewrite Hids. apply list_eq. intros i. rewrite !list_lookup_fmap.
    destruct (Hpoint i) as (a & b & ->).
    destruct (st !! i) as [r|]; [|done]; cbn.
    f_equal. apply stepRow_keeps.
  - intros Hall. apply HQ'. apply Forall_lookup. intros i r1 Hr1.
    destruct (Hpoint i) as (a & b & Hp). rewrite Hr1 in Hp.
    destruct (st !! i) as [r|] eqn:Hr; [|done]. cbn in Hp.
    injection Hp as ->. apply HQ.
    by eapply (Forall_lookup_1 Q st).
Qed.

Lemma initialTable_consistent (idx : gmap string Player) (ps : list string) :
  Forall (λ r, r_name r = playerName idx (r_id r) ∧ rowConsistent r)
         (initialTable idx ps).
Proof.
  unfold initialTable. apply Forall_fmap, Forall_forall.
  intros p _. cbn. unfold rowConsistent; cbn. split_and!; (done || lia).
Qed.

(** The rows of a standings table, in some order, are those of the
    group's players, and each keeps the name looked up for its id. *)
Lemma computeStandings_ids (lc : string → string → Z) (g : Group)
    (idx : gmap string Player) (table : list Row) :
  computeStandings lc g idx = Some table →
  r_id <$> table ≡ₚ g_players g ∧
  Forall (λ r, r_name r = playerName idx (r_id r) ∧ rowConsistent r) table.
Proof.
  unfold computeStandings. intros Htable.
  destruct (playAll _ _ _) as [st|] eqn:Hst; [|done].
  cbn in Htable. injection Htable as <-.
  assert (Hstep : ∀ m isA isB r,
            r_name r = playerName idx (r_id r) ∧ rowConsistent r →
            r_name (stepRow m isA isB r)
              = playerName idx (r_id (stepRow m isA isB r)) ∧
            rowConsistent (stepRow m isA isB r)).
  { intros m isA isB r [Hname Hcons].
    destruct (stepRow_keeps m isA isB r) as (-> & -> & Hkeep). auto. }
  destruct (playAll_keeps
              (λ r, r_name r = playerName idx (r_id r) ∧ rowConsistent r)
              _ _ _ _ Hstep Hst) as (_ & Hids & Hall).
  split.
  - by rewrite sortBy_Permutation, Hids, initialTable_ids.
  - rewrite sortBy_Permutation. apply Hall, initialTable_consistent.
Qed.

(** X8: whenever [computeStandings] returns, for any group at all,
    the table has exactly one row per entry of the group's player list
    (in some order), each row carries the name looked up for its id,
    and in each row [Pts = 3 W], [P = W + L] and [PD = PF - PA], with
    [W] and [L] not negative. *)
Theorem computeStandings_rows (lc : string → string → Z) (g : Group)
    (idx : gmap string Player) (table : list Row) :
  computeStandings lc g idx = Some table →
  r_id <$> table ≡ₚ g_players g ∧
  length table = length (g_players g) ∧
  Forall (λ r, r_name r = playerName idx (r_id r) ∧ rowConsistent r) table.
Proof.
  intros [Hids Hall]%computeStandings_ids. split_and!; [done | | done].
  by rewrite <- Hids, length_fmap.
Qed.

Lemma computeStandings_rows_witness :
  let g := mkGroup "X" ["A"; "B"; "B"]
    [ mkMatch 1 (Some "A") (Some "B") (Some 21%Z) None (Some true);
      mkMatch 2 (Some "B") (Some "B") (Some 3%Z) (Some 21%Z) (Some true) ] in
  ∃ table,
    computeStandings byteCompare g ∅ = Some table ∧
    length table = 3 ∧
    Forall (λ r, r_name r = "?" ∧ rowConsistent r) table.
Proof.
  intros g.
  destruct (computeStandings byteCompare g ∅) as [table|] eqn:Htable;
    [|by vm_compute in Htable].
  exists table. split; [done|].
  destruct (computeStandings_rows byteCompare g ∅ table Htable)
    as (_ & Hlen & Hall).
  split; [exact Hlen|].
  eapply Forall_impl; [exact Hall|]. intros r [Hname Hcons].
  split; [|done]. rewrite Hname. unfold playerName. by rewrite lookup_empty.
Defined.

Lemma total_cons (F : Row → Z) (r : Row) (t : list Row) :
  total F (r :: t) = (F r + total F t)%Z.
Proof. reflexivity. Qed.

Lemma total_Permutation (F : Row → Z) (t t' : list Row) :
  t ≡ₚ t' → total F t = total F t'.
Proof.
  induction 1 as [| r t t' _ IH | r r' t | t t' t'' _ IH1 _ IH2];
    rewrite ?total_cons; (done || lia).
Qed.

Lemma total_alter (F : Row → Z) (f : Row → Row) (c : Z) (i : nat)
    (t : list Row) :
  (∀ r, F (f r) = (F r + c)%Z) → i < length t →
  total F (alter f i t) = (total F t + c)%Z.
Proof.
  intros Hf. revert i. induction t as [|r t IH]; intros i Hi;
    [cbn in Hi; lia|].
  destruct i as [|i]; cbn [alter list_alter]; rewrite !total_cons.
  - rewrite Hf. lia.
  - rewrite (IH i) by (cbn in Hi; lia). lia.
Qed.

Lemma total_alter_same (F : Row → Z) (f : Row → Row) (i : nat)
    (t : list Row) :
  (∀ r, F (f r) = F r) → total F (alter f i t) = total F t.
Proof.
  intros Hf. revert i. induction t as [|r t IH]; intros i; [done|].
  destruct i as [|i]; cbn [alter list_alter]; rewrite !total_cons.
  - by rewrite Hf.
  - by rewrite IH.
Qed.

Lemma total_initialTable (F : Row → Z) (idx : gmap string Player)
    (ps : list string) :
  (∀ i n, F (mkRow i n 0 0 0 (Int 0) (Int 0) (Int 0) 0) = 0%Z) →
  total F (initialTable idx ps) = 0%Z.
Proof.
  intros HF. unfold initialTable.
  induction ps as [|p ps IH]; [done|].
  rewrite fmap_cons, total_cons, HF, IH. done.
Qed.

(** One completed match gives one win and one loss and is played by
    two sides. *)
Lemma playMatch_totals (row : gmap string nat) (st st' : list Row)
    (m : Match) :
  (∀ k i, row !! k = Some i → i < length st) →
  playMatch row st m = Some st' →
  let c := if is_completed m then 1%Z else 0%Z in
  length st' = length st ∧
  total W st' = (total W st + c)%Z ∧
  total L st' = (total L st + c)%Z ∧
  total P st' = (total P st + 2 * c)%Z.
Proof.
  intros Hrow. unfold playMatch.
  destruct (is_completed m); [|intros [= <-]; cbn; split_and!; lia].
  destruct (row !! propKey (m_a m)) as [ia|] eqn:Ha; [|done].
  destruct (row !! propKey (m_b m)) as [ib|] eqn:Hb; [|done].
  apply Hrow in Ha, Hb. cbn [mbind option_bind].
  intros [= <-]. cbn zeta.
  destruct (scoreA_gt_scoreB m); rewrite !length_alter;
    (split; [done|]); split_and!;
    repeat first
      [ rewrite total_alter_same by done
      | rewrite (total_alter _ _ 1%Z) by (rewrite ?length_alter; done) ];
    lia.
Qed.

Lemma playAll_totals (row : gmap string nat) (st st' : list Row)
    (ms : list Match) :
  (∀ k i, row !! k = Some i → i < length st) →
  playAll row st ms = Some st' →
  let c := Z.of_nat (completedIn ms) in
  total W st' = (total W st + c)%Z ∧
  total L st' = (total L st + c)%Z ∧
  total P st' = (total P st + 2 * c)%Z.
Proof.
  revert st. induction ms as [|m ms IH]; intros st Hrow Hst.
  { cbn in Hst. injection Hst as <-. cbn. split_and!; lia. }
  cbn [playAll] in Hst.
  destruct (playMatch row st m) as [st1|] eqn:Hst1; [|done]. cbn in Hst.
  destruct (playMatch_totals row st st1 m Hrow Hst1)
    as (Hlen & HW & HL & HP).
  destruct (IH st1) as (HW' & HL' & HP'); [|done|].
  { intros k i Hk. rewrite Hlen. eauto. }
  cbn zeta. rewrite HW', HL', HP', HW, HL, HP.
  unfold completedIn. rewrite filter_cons.
  destruct (is_completed m); case_decide; try done;
    cbn [length]; split_and!; lia.
Qed.

(** X9: for a group whose completed matches are all between players
    of the group, [computeStandings] returns a table in which the wins
    add up to the number of completed matches, and so do the losses;
    the matches played add up to twice that number. *)
Theorem computeStandings_totals (lc : string → string → Z) (g : Group)
    (idx : gmap string Player) :
  Forall (λ m, ¬ strayMatch (g_players g) m) (g_matches g) →
  ∃ table,
    computeStandings lc g idx = Some table ∧
    let n := Z.of_nat (completedIn (g_matches g)) in
    total W table = n ∧ total L table = n ∧ total P table = (2 * n)%Z.
Proof.
  intros Hlisted. unfold computeStandings.
  destruct (playAll _ _ _) as [st|] eqn:Hst; cbn.
  - eexists; split; [reflexivity|].
    destruct (playAll_totals _ _ _ _ (rowIndex_bound _) Hst)
      as (HW & HL & HP).
    rewrite !total_initialTable in HW, HL, HP by done.
    cbn zeta.
    rewrite !(total_Permutation _ _ _ (sortBy_Permutation _ st)).
    lia.
  - exfalso. apply playAll_None in Hst.
    apply Exists_exists in Hst as (m & Hm & Hc & Hnone).
    rewrite Forall_forall in Hlisted. apply (Hlisted m Hm).
    split; [done|].
    by rewrite !rowIndex_None, initialTable_ids in Hnone.
Qed.

Lemma computeStandings_totals_witness :
  let g := mkGroup "X" ["A"; "B"; "C"; "D"]
    [ mkMatch 1 (Some "A") (Some "B") (Some 21%Z) (Some 10%Z) (Some true);
      mkMatch 2 (Some "C") (Some "D") None None None;
      mkMatch 3 (Some "C") (Some "A") (Some 4%Z) (Some 21%Z) (Some true) ] in
  ∃ table,
    computeStandings byteCompare g ∅ = Some table ∧
    total W table = 2%Z ∧ total L table = 2%Z ∧ total P table = 4%Z.
Proof.
  intros g.
  apply (computeStandings_totals byteCompare g ∅).
  repeat constructor; intros [Hc [Hin|Hin]]; try done;
    apply Hin; cbn; set_solver.
Defined.

(** ** Properties of the group stage *)

Lemma foldl_add_shift {A : Type} (f : A → nat) (l : list A) (a : nat) :
  foldl (λ acc x, acc + f x) a l = a + foldl (λ acc x, acc + f x) 0 l.
Proof.
  revert a. induction l as [|x l IH]; intros a; cbn; [lia|].
  rewrite (IH (a + f x)), (IH (f x)). lia.
Qed.

Lemma completedCount_cons (g : Group) (gs : list Group) :
  completedCount (g :: gs) = completedIn (g_matches g) + completedCount gs.
Proof. unfold completedCount. cbn. by rewrite foldl_add_shift. Qed.

Lemma totalMatches_cons (g : Group) (gs : list Group) :
  totalMatches (g :: gs) = length (g_matches g) + totalMatches gs.
Proof. unfold totalMatches. cbn. by rewrite foldl_add_shift. Qed.

Lemma completedIn_le (ms : list Match) :
  completedIn ms ≤ length ms ∧
  (allCompleted ms = true ↔ completedIn ms = length ms).
Proof.
  unfold completedIn, allCompleted.
  induction ms as [|m ms [IHle IHiff]]; [done|].
  rewrite filter_cons. cbn [forallb length].
  destruct (is_completed m); case_decide; try done; cbn [length andb].
  - split; [lia|]. rewrite IHiff. lia.
  - split; [lia|]. split; [done | lia].
Qed.

(** X10: the progress line of the group stage never shows more
    completed matches than there are matches, and the "Generate
    Knockout Bracket" button is enabled exactly when the two numbers
    are equal. *)
Theorem groupStage_progress (gs : list Group) :
  completedCount gs ≤ totalMatches gs ∧
  (groupStageAllCompleted gs = true ↔ completedCount gs = totalMatches gs).
Proof.
  unfold groupStageAllCompleted.
  induction gs as [|g gs [IHle IHiff]]; [done|].
  rewrite completedCount_cons, totalMatches_cons. cbn [forallb].
  destruct (completedIn_le (g_matches g)) as [Hle Hiff].
  split; [lia|].
  rewrite andb_true_iff, Hiff, IHiff. lia.
Qed.

Lemma replaceMatch_idem (mws : Match) (ms : list Match) :
  replaceMatch mws (replaceMatch mws ms) = replaceMatch mws ms.
Proof.
  unfold replaceMatch. rewrite <- list_fmap_compose.
  apply list_fmap_ext. intros _ m _. cbn.
  destruct (decide (m_id m = m_id mws)) as [Heq|Hne].
  - rewrite (bool_decide_true (m_id m = m_id mws)) by done. cbn.
    by rewrite bool_decide_true.
  - rewrite (bool_decide_false (m_id m = m_id mws)) by done.
    by rewrite bool_decide_false.
Qed.

Lemma replaceMatch_absent (mws : Match) (ms : list Match) :
  m_id mws ∉ m_id <$> ms → replaceMatch mws ms = ms.
Proof.
  intros Hnot. unfold replaceMatch.
  rewrite <- (list_fmap_id ms) at 2. apply list_fmap_ext.
  intros i m Hm. cbn. rewrite bool_decide_false; [done|].
  intros Heq. apply Hnot. rewrite <- Heq.
  apply list_elem_of_fmap. exists m. split; [done|].
  by eapply list_elem_of_lookup_2.
Qed.

Lemma replaceMatch_progress (mws : Match) (ms : list Match) :
  completedIn ms ≤ completedIn (replaceMatch mws ms).
Proof.
  unfold completedIn, replaceMatch.
  induction ms as [|m ms IH]; [done|].
  rewrite fmap_cons, !filter_cons.
  case_bool_decide; repeat case_decide; cbn [length]; try lia.
  done.
Qed.

(** X11: saving a group score is idempotent; it touches nothing but
    the matches of the groups: players, rounds, stage, champion and
    target stay; it leaves the state as it is when no group has the
    given name, or when no match of the named groups has the saved
    match's id; and it never lowers the number of completed matches
    nor changes the number of matches. *)
Theorem updateGroupMatch_spec (name : string) (mws : Match) (s : AppState) :
  let s' := updateGroupMatch name mws s in
  updateGroupMatch name mws s' = s' ∧
  (players s' = players s ∧ rounds s' = rounds s ∧ stage s' = stage s ∧
   champion s' = champion s ∧ target s' = target s ∧ mode s' = mode s) ∧
  (name ∉ g_name <$> groups s → s' = s) ∧
  ((∀ g, g ∈ groups s → g_name g = name →
         m_id mws ∉ m_id <$> g_matches g) → s' = s) ∧
  completedCount (groups s) ≤ completedCount (groups s') ∧
  totalMatches (groups s') = totalMatches (groups s).
Proof.
  cbn zeta. unfold updateGroupMatch.
  cbn [players groups mode stage rounds champion target bracketSkin nextUid].
  split_and!; try done.
  - f_equal. rewrite <- list_fmap_compose. apply list_fmap_ext.
    intros _ g _. cbn. destruct (decide (g_name g = name)) as [Heq|Hne].
    + rewrite (bool_decide_false (g_name g ≠ name)) by auto. cbn.
      rewrite bool_decide_false by auto. f_equal.
      apply replaceMatch_idem.
    + rewrite (bool_decide_true (g_name g ≠ name)) by done.
      by rewrite bool_decide_true.
  - intros Hnot. destruct s; cbn in *. f_equal.
    rewrite <- (list_fmap_id groups0) at 2. apply list_fmap_ext.
    intros i g Hg. cbn. rewrite bool_decide_true; [done|].
    intros Heq. apply Hnot. rewrite <- Heq.
    apply list_elem_of_fmap. exists g. split; [done|].
    by eapply list_elem_of_lookup_2.
  - intros Hnot. destruct s; cbn in *. f_equal.
    rewrite <- (list_fmap_id groups0) at 2. apply list_fmap_ext.
    intros i g Hg. cbn. case_bool_decide as Hname; [done|].
    rewrite replaceMatch_absent; [by destruct g|].
    apply Hnot; [by eapply list_elem_of_lookup_2|].
    by destruct (decide (g_name g = name)).
  - induction (groups s) as [|g gs IH]; [done|].
    rewrite fmap_cons, !completedCount_cons.
    case_bool_decide; cbn [g_matches]; [lia|].
    pose proof (replaceMatch_progress mws (g_matches g)). lia.
  - induction (groups s) as [|g gs IH]; [done|].
    rewrite fmap_cons, !totalMatches_cons, IH.
    case_bool_decide; cbn [g_matches]; [done|].
    by rewrite replaceMatch_length.
Qed.

Lemma updateGroupMatch_spec_witness :
  let g := mkGroup "A" ["p"; "q"] [freshMatch 3 (Some "p") (Some "q")] in
  let s := mkApp [] [g] ModeGroups StGroups [] PlaceNull 21 false 4 in
  updateGroupMatch "B" (freshMatch 3 (Some "p") (Some "q")) s = s.
Proof.
  intros g s.
  destruct (updateGroupMatch_spec "B" (freshMatch 3 (Some "p") (Some "q")) s)
    as (_ & _ & Hmissing & _).
  apply Hmissing.
  cbn. intros Hin. apply list_elem_of_singleton in Hin. done.
Defined.

(** ** Invariants of the reachable states *)

Lemma saveScore_Some (tgt : Z) (m res : Match) (sa sb : option Z) :
  saveScore tgt m sa sb = Some res →
  res = savedMatch m sa sb ∧ validateCornholeScore sa sb tgt = None.
Proof.
  unfold saveScore. destruct (validateCornholeScore sa sb tgt); [done|].
  by intros [= <-].
Qed.

Section Reachability.

Variable localeCompare : string → string → Z.

(** To show that a property holds in every reachable state it is enough
    to show that the initial state has it and that each handler keeps
    it, under the conditions in which the interface calls the
    handler. *)
Lemma reachable_invariant (Inv : AppState → Prop) :
  Inv initialState →
  (∀ s t, Inv s → (t = 11 ∨ t = 21)%Z → Inv (setTarget t s)) →
  (∀ s names m rand, Inv s → Inv (handleSetup names m rand s)) →
  (∀ s g m sa sb,
     Inv s → g ∈ groups s → m ∈ g_matches g →
     validateCornholeScore sa sb (target s) = None →
     Inv (updateGroupMatch (g_name g) (savedMatch m sa sb) s)) →
  (∀ s s',
     Inv s → groupStageAllCompleted (groups s) = true →
     advanceToKnockout localeCompare s = Some s' → Inv s') →
  (∀ s ri r m sa sb s',
     Inv s → rounds s !! ri = Some r → m ∈ r →
     validateCornholeScore sa sb (target s) = None →
     submitKnockoutScore ri (savedMatch m sa sb) s = Some s' → Inv s') →
  (∀ s st skin, Inv s → Inv (showStage st skin s)) →
  (∀ s, Inv s → Inv (resetAll s)) →
  ∀ s, reachable localeCompare s → Inv s.
Proof.
  intros Hinit Htarget Hsetup Hgroup Hadvance Hsubmit Hshow Hreset.
  induction 1 as [|s e s' Hs IH He]; [done|].
  destruct e; cbn in He; repeat case_bool_decide; simplify_eq/=; auto.
  - apply Htarget; tauto.
  - destruct (groups s !! groupIndex) as [g|] eqn:Hg; [|done]. cbn in He.
    destruct (g_matches g !! matchIndex) as [m|] eqn:Hm; [|done]. cbn in He.
    destruct (saveScore _ _ _ _) as [res|] eqn:Hres; [|done].
    injection He as <-. apply saveScore_Some in Hres as [-> Hvalid].
    apply Hgroup; [done | | | done]; by eapply list_elem_of_lookup_2.
  - eapply Hadvance; [done | | done]. tauto.
  - destruct (rounds s !! roundIndex) as [r|] eqn:Hr; [|done]. cbn in He.
    destruct (r !! matchIndex) as [m|] eqn:Hm; [|done]. cbn in He.
    destruct (saveScore _ _ _ _) as [res|] eqn:Hres; [|done]. cbn in He.
    apply saveScore_Some in Hres as [-> Hvalid].
    eapply Hsubmit; [done | done | | done | done].
    by eapply list_elem_of_lookup_2.
Qed.

End Reachability.

(** *** Tokens used as player ids *)

Lemma pretty_N_go_nonempty (x : N) (s : string) :
  s ≠ "" → pretty_N_go x s ≠ "".
Proof.
  revert s. induction (N.lt_wf_0 x) as [x _ IH]; intros s Hs.
  destruct (decide (x = 0)%N) as [->|Hx]; [by rewrite pretty_N_go_0|].
  rewrite pretty_N_go_step by lia. apply IH; [|done].
  apply N.div_lt; lia.
Qed.

Lemma uidString_nonempty (n : nat) : uidString n ≠ "".
Proof.
  unfold uidString, pretty, pretty_nat, pretty, pretty_N.
  case_decide; [done|].
  rewrite pretty_N_go_step by lia. by apply pretty_N_go_nonempty.
Qed.

Lemma uidString_inj (n n' : nat) : uidString n = uidString n' → n = n'.
Proof. apply (inj pretty). Qed.

Lemma seedPlayers_ids (fresh : nat) (shuffled : list string) :
  p_id <$> seedPlayers fresh shuffled
  = uidString <$> seq fresh (length shuffled).
Proof.
  unfold seedPlayers. rewrite fmap_imap.
  rewrite <- (imap_seq shuffled uidString fresh). by apply imap_ext.
Qed.

Lemma seedPlayers_ids_NoDup (fresh : nat) (shuffled : list string) :
  NoDup (p_id <$> seedPlayers fresh shuffled) ∧
  Forall (λ p, p ≠ "") (p_id <$> seedPlayers fresh shuffled).
Proof.
  rewrite seedPlayers_ids. split.
  - apply NoDup_fmap_2_strong; [|apply NoDup_seq].
    intros n n' _ _. apply uidString_inj.
  - apply Forall_fmap, Forall_forall. intros n _. apply uidString_nonempty.
Qed.

(** *** The groups [handleSetup] builds *)

Lemma groupLabel_inj (i j : nat) :
  i < 100 → j < 100 → groupLabel i = groupLabel j → i = j.
Proof.
  unfold groupLabel. intros Hi Hj [= Heq].
  apply (f_equal Ascii.nat_of_ascii) in Heq.
  rewrite !Ascii.nat_ascii_embedding in Heq by lia. lia.
Qed.

Lemma imap_fmap_seq {A B : Type} (f : nat → A → B) (g : nat → A) (k : nat) :
  imap f (g <$> seq 0 k) = (λ j, f j (g j)) <$> seq 0 k.
Proof.
  apply list_eq. intros i.
  rewrite list_lookup_imap, !list_lookup_fmap.
  destruct (seq 0 k !! i) as [j|] eqn:Hj; [|done].
  apply lookup_seq in Hj as [-> _]. done.
Qed.

(** The groups built from [4 k] seeded players, written out. *)
Lemma buildGroups_closed_form (fresh k : nat) (seeded : list Player) :
  length seeded = k * 4 →
  buildGroups fresh (chunk seeded 4)
  = (λ j, mkGroup (groupLabel j)
            (take 4 (drop (j * 4) (p_id <$> seeded)))
            (scheduleRoundRobin4 (fresh + 6 * j)
               (take 4 (drop (j * 4) (p_id <$> seeded)))))
      <$> seq 0 k.
Proof.
  intros Hlen. rewrite chunk_closed_form by lia.
  assert (chunkCount (length seeded) 4 = k) as ->.
  { unfold chunkCount. symmetry.
    apply (Nat.div_unique _ _ _ 3); lia. }
  unfold buildGroups. rewrite imap_fmap_seq.
  apply list_fmap_ext. intros _ j _. cbn zeta.
  by rewrite fmap_take, fmap_drop.
Qed.

Lemma slice_shape (ids : list string) (j k : nat) :
  length ids = k * 4 → j < k → NoDup ids → Forall (λ p, p ≠ "") ids →
  let sl := take 4 (drop (j * 4) ids) in
  length sl = 4 ∧ NoDup sl ∧ Forall (λ p, p ≠ "") sl.
Proof.
  intros Hlen Hj Hnd Hne. cbn zeta. split_and!.
  - rewrite length_take, length_drop. lia.
  - apply (sublist_NoDup _ ids); [exact Hnd|].
    etrans; [apply sublist_take | apply sublist_drop].
  - by apply Forall_take, Forall_drop.
Qed.

Lemma scheduleRoundRobin4_ids (fresh : nat) (ids : list string) :
  m_id <$> scheduleRoundRobin4 fresh ids = seq fresh 6 ∧
  participants <$> scheduleRoundRobin4 fresh ids = roundRobinPairs ids ∧
  Forall unplayed (scheduleRoundRobin4 fresh ids).
Proof.
  split_and!.
  - cbn. repeat f_equal; lia.
  - reflexivity.
  - repeat constructor.
Qed.

Lemma unplayed_valid (ms : list Match) :
  Forall unplayed ms → Forall matchValid ms.
Proof.
  intros Hall. eapply Forall_impl; [exact Hall|].
  intros m (_ & _ & _ & Hc) Hc'. congruence.
Qed.

Section BuiltGroups.

Variables (fresh k : nat) (ids : list string).
Hypothesis ids_length : length ids = k * 4.
Hypothesis ids_NoDup : NoDup ids.
Hypothesis ids_nonempty : Forall (λ p, p ≠ "") ids.

Local Abbreviation built :=
  ((λ j, mkGroup (groupLabel j)
           (take 4 (drop (j * 4) ids))
           (scheduleRoundRobin4 (fresh + 6 * j) (take 4 (drop (j * 4) ids))))
     <$> seq 0 k).

Lemma built_names : k ≤ 8 → NoDup (g_name <$> built).
Proof using Type.
  clear ids_length ids_NoDup ids_nonempty.
  intros Hk. rewrite <- list_fmap_compose.
  apply NoDup_fmap_2_strong; [|apply NoDup_seq].
  intros i j [_ Hi]%elem_of_seq [_ Hj]%elem_of_seq. cbn.
  apply groupLabel_inj; lia.
Qed.

Lemma built_shape : Forall groupShape built.
Proof using ids_length ids_NoDup ids_nonempty.
  apply Forall_fmap, Forall_forall. intros j [_ Hj]%elem_of_seq.
  destruct (slice_shape ids j k ids_length) as (Hlen & Hnd & Hne);
    [lia | done | done |].
  red; cbn. split_and!; done.
Qed.

Lemma built_players : concat (g_players <$> built) = ids.
Proof using ids_length.
  rewrite <- list_fmap_compose.
  rewrite (list_fmap_ext _ (λ j, take 4 (drop (j * 4) ids)) (seq 0 k))
    by done.
  rewrite concat_slices. apply take_ge. lia.
Qed.

Lemma built_match_ids :
  m_id <$> concat (g_matches <$> built) = seq fresh (6 * k) ∧
  Forall unplayed (concat (g_matches <$> built)).
Proof using Type.
  clear ids_length ids_NoDup ids_nonempty.
  induction k as [|n [IHids IHun]]; [by split; [|constructor]|].
  rewrite seq_S, !fmap_app, concat_app, fmap_app, Forall_app.
  cbn [Nat.add fmap list_fmap concat g_matches]. rewrite app_nil_r.
  destruct (scheduleRoundRobin4_ids (fresh + 6 * n)
              (take 4 (drop (n * 4) ids))) as (Hids & _ & Hun).
  rewrite IHids, Hids. split; [|done].
  replace (6 * S n) with (6 * n + 6) by lia.
  by rewrite seq_app.
Qed.

End BuiltGroups.

(** *** Lists of lists *)

Lemma Forall_concat {A : Type} (Q : A → Prop) (ls : list (list A)) :
  Forall Q (concat ls) ↔ Forall (Forall Q) ls.
Proof.
  induction ls as [|l ls IH]; cbn.
  - split; constructor.
  - by rewrite Forall_app, Forall_cons, IH.
Qed.

Lemma NoDup_fmap_elem_inj {A B : Type} (f : A → B) (l : list A) (x y : A) :
  NoDup (f <$> l) → x ∈ l → y ∈ l → f x = f y → x = y.
Proof.
  intros Hnd [i Hi]%list_elem_of_lookup [j Hj]%list_elem_of_lookup Heq.
  assert (i = j) as ->; [|congruence].
  eapply (NoDup_lookup (f <$> l)); [done|..];
    rewrite list_lookup_fmap; [by rewrite Hi | by rewrite Hj, Heq].
Qed.

Lemma NoDup_concat_elem {A B : Type} (f : A → B) (ls : list (list A))
    (l : list A) :
  NoDup (f <$> concat ls) → l ∈ ls → NoDup (f <$> l).
Proof.
  intros Hnd (l1 & l2 & ->)%list_elem_of_split.
  rewrite concat_app, concat_cons, !fmap_app in Hnd.
  apply NoDup_app in Hnd as (_ & _ & Hnd).
  by apply NoDup_app in Hnd as (Hnd & _).
Qed.

(** *** Saving a score over a match *)

Lemma replaceMatch_ids (mws : Match) (ms : list Match) :
  m_id <$> replaceMatch mws ms = m_id <$> ms.
Proof.
  unfold replaceMatch. rewrite <- list_fmap_compose.
  apply list_fmap_ext. intros _ m _. cbn. by case_bool_decide.
Qed.

Lemma replaceMatch_elem (mws m' : Match) (ms : list Match) :
  m' ∈ replaceMatch mws ms → m' ∈ ms ∨ m' = markCompleted mws.
Proof.
  unfold replaceMatch. intros (m & -> & Hm)%list_elem_of_fmap.
  case_bool_decide; auto.
Qed.

Lemma replaceMatch_participants (mws : Match) (ms : list Match) :
  (∀ m, m ∈ ms → m_id m = m_id mws → participants m = participants mws) →
  participants <$> replaceMatch mws ms = participants <$> ms.
Proof.
  intros Hsame. unfold replaceMatch. rewrite <- list_fmap_compose.
  apply list_fmap_ext. intros i m Hm. cbn.
  case_bool_decide; [|done]. symmetry. apply Hsame; [|done].
  by eapply list_elem_of_lookup_2.
Qed.

(** With distinct ids a save replaces the one match it was made on. *)
Lemma replaceMatch_insert (m : Match) (sa sb : option Z) (ms : list Match)
    (i : nat) :
  NoDup (m_id <$> ms) → ms !! i = Some m →
  replaceMatch (savedMatch m sa sb) ms = <[i := savedMatch m sa sb]> ms.
Proof.
  intros Hnd Hm. apply list_eq. intros j. unfold replaceMatch.
  rewrite list_lookup_fmap.
  destruct (decide (i = j)) as [<-|Hne].
  - rewrite list_lookup_insert_eq by (by eapply lookup_lt_Some).
    rewrite Hm. cbn. by rewrite bool_decide_true.
  - rewrite list_lookup_insert_ne by done.
    destruct (ms !! j) as [m'|] eqn:Hm'; [|done]. cbn.
    rewrite bool_decide_false; [done|]. intros Heq. cbn in Heq. apply Hne.
    eapply (NoDup_lookup (m_id <$> ms)); [done|..]; rewrite list_lookup_fmap.
    + by rewrite Hm.
    + rewrite Hm'. cbn. by rewrite Heq.
Qed.

Lemma savedMatch_valid (tgt : Z) (m : Match) (sa sb : option Z) :
  (tgt = 11 ∨ tgt = 21)%Z →
  validateCornholeScore sa sb tgt = None →
  matchValid (markCompleted (savedMatch m sa sb)).
Proof.
  intros Htgt Hvalid _. unfold complete; cbn.
  destruct Htgt as [<-|<-]; [left | right]; done.
Qed.

(** *** The matches of the groups under a save *)

Lemma updateGroupMatch_groups (name : string) (mws : Match) (s : AppState) :
  g_name <$> groups (updateGroupMatch name mws s) = g_name <$> groups s ∧
  g_players <$> groups (updateGroupMatch name mws s)
    = g_players <$> groups s ∧
  m_id <$> concat (g_matches <$> groups (updateGroupMatch name mws s))
    = m_id <$> concat (g_matches <$> groups s).
Proof.
  unfold updateGroupMatch; cbn [groups].
  induction (groups s) as [|g gs (IHn & IHp & IHi)]; [done|].
  rewrite !fmap_cons, !concat_cons, !fmap_app, IHn, IHp, IHi.
  case_bool_decide; [done|]. cbn. by rewrite replaceMatch_ids.
Qed.

Lemma updateGroupMatch_elem (name : string) (mws m' : Match) (s : AppState) :
  m' ∈ concat (g_matches <$> groups (updateGroupMatch name mws s)) →
  m' ∈ concat (g_matches <$> groups s) ∨ m' = markCompleted mws.
Proof.
  unfold updateGroupMatch; cbn [groups].
  induction (groups s) as [|g gs IH]; [by left|].
  rewrite !fmap_cons, !concat_cons, !elem_of_app.
  intros [Hm|Hm]; [|destruct (IH Hm); auto].
  case_bool_decide; [auto|]. cbn in Hm.
  apply replaceMatch_elem in Hm as [?|?]; auto.
Qed.

Lemma imap_concat_ids (f : nat → list Match → list Match)
    (rs : list (list Match)) :
  (∀ i r, m_id <$> f i r = m_id <$> r) →
  m_id <$> concat (imap f rs) = m_id <$> concat rs.
Proof.
  revert f. induction rs as [|r rs IH]; intros f Hf; [done|].
  rewrite imap_cons, !concat_cons, !fmap_app, Hf, IH; [done|].
  intros i r'. apply Hf.
Qed.

Lemma imap_concat_elem (f : nat → list Match → list Match) (x m' : Match)
    (rs : list (list Match)) :
  (∀ i r, m' ∈ f i r → m' ∈ r ∨ m' = x) →
  m' ∈ concat (imap f rs) → m' ∈ concat rs ∨ m' = x.
Proof.
  revert f. induction rs as [|r rs IH]; intros f Hf; [by left|].
  rewrite imap_cons, !concat_cons, !elem_of_app.
  intros [Hm|Hm].
  - destruct (Hf 0 r Hm); auto.
  - destruct (IH (f ∘ S)) as [?|?]; auto. intros i r'. apply Hf.
Qed.

Lemma updateRounds_ids (ri : nat) (mws : Match) (rs : list (list Match)) :
  m_id <$> concat (updateRounds ri mws rs) = m_id <$> concat rs.
Proof.
  apply imap_concat_ids. intros i r.
  case_bool_decide; [apply replaceMatch_ids | done].
Qed.

Lemma updateRounds_elem (ri : nat) (mws m' : Match) (rs : list (list Match)) :
  m' ∈ concat (updateRounds ri mws rs) →
  m' ∈ concat rs ∨ m' = markCompleted mws.
Proof.
  apply imap_concat_elem. intros i r.
  case_bool_decide; [apply replaceMatch_elem | by left].
Qed.

(** *** Tokens of the knockout builder *)

Lemma pushPairing_ids (fresh : nat) (w r : option string) :
  m_id <$> pushPairing fresh w r = seq fresh (length (pushPairing fresh w r)).
Proof.
  unfold pushPairing. by destruct (truthyId w && truthyId r).
Qed.

Lemma pairGroups_ids (adv : gmap string (option string * option string))
    (order : list string) (fresh : nat) (pairings : list Match) :
  pairGroups adv fresh order = Some pairings →
  m_id <$> pairings = seq fresh (length pairings) ∧
  Forall unplayed pairings.
Proof.
  revert fresh pairings.
  induction order as [| g | g1 g2 order IH] using list_pair_ind;
    intros fresh pairings Hp; cbn in Hp.
  - injection Hp as <-. by split; [|constructor].
  - injection Hp as <-. by split; [|constructor].
  - case_bool_decide; [injection Hp as <-; by split; [|constructor]|].
    destruct (adv !! g1) as [adv1|]; [|done].
    destruct (adv !! g2) as [adv2|]; [|done]. cbn in Hp.
    destruct (pairGroups adv _ order) as [tl|] eqn:Htl; [|done].
    injection Hp as <-. apply IH in Htl as [Hids Hun].
    rewrite !fmap_app, !length_app, !seq_app, !Forall_app.
    rewrite !pushPairing_ids, Hids.
    split; [done|].
    split_and!; [apply pushPairing_unplayed.. | done].
Qed.

Lemma tokens_extend (old new : list Match) (n : nat) :
  NoDup (m_id <$> old) → Forall (λ m, m_id m < n) old →
  m_id <$> new = seq n (length new) →
  NoDup (m_id <$> (old ++ new)) ∧
  Forall (λ m, m_id m < n + length new) (old ++ new).
Proof.
  intros Hnd Hlt Hnew. split.
  - rewrite fmap_app, Hnew. apply NoDup_app. split_and!; [done| |apply NoDup_seq].
    intros i (m & -> & Hm)%list_elem_of_fmap [Hi _]%elem_of_seq.
    rewrite Forall_forall in Hlt. specialize (Hlt m Hm). lia.
  - apply Forall_app. split.
    + eapply Forall_impl; [exact Hlt|]. cbn. lia.
    + apply (Forall_fmap m_id (λ i, i < n + length new)). rewrite Hnew.
      apply Forall_forall. intros i [_ Hi]%elem_of_seq. lia.
Qed.

(** *** The invariant is kept by every handler *)

Lemma stateSound_same (s s' : AppState) :
  target s' = target s → groups s' = groups s → rounds s' = rounds s →
  players s' = players s → nextUid s' = nextUid s →
  stateSound s → stateSound s'.
Proof.
  unfold stateSound, tokensFresh, allMatches.
  by intros -> -> -> -> ->.
Qed.

Lemma stateSound_initial : stateSound initialState.
Proof.
  unfold stateSound, tokensFresh, allMatches; cbn.
  split_and!; [by right | constructor.. | by left].
Qed.

Lemma stateSound_setTarget (t : Z) (s : AppState) :
  (t = 11 ∨ t = 21)%Z → stateSound s → stateSound (setTarget t s).
Proof.
  intros Ht (_ & Hrest). by split.
Qed.

Lemma stateSound_resetAll (s : AppState) :
  stateSound s → stateSound (resetAll s).
Proof.
  intros (Ht & _). unfold stateSound, tokensFresh, allMatches; cbn.
  split_and!; [done | constructor.. | by left].
Qed.

Lemma stateSound_handleSetup (names : list string) (m : Mode)
    (rand : nat → nat) (s : AppState) :
  stateSound s → stateSound (handleSetup names m rand s).
Proof.
  intros Hs. pose proof Hs as (Ht & _).
  unfold handleSetup. destruct m.
  - case_bool_decide as Hg; [by eapply stateSound_same|].
    cbv zeta.
    set (seeded := seedPlayers (nextUid s) (shuffle rand 0 names)).
    set (k := length names / 4).
    assert (Hlen : length seeded = k * 4).
    { unfold seeded, k. rewrite seedPlayers_length, shuffle_length.
      destruct (decide (length names mod 4 = 0)) as [Hmod|]; [|tauto].
      pose proof (Nat.div_mod_eq (length names) 4). lia. }
    assert (Hk : k ≤ 8).
    { unfold k. apply Nat.Div0.div_le_upper_bound. lia. }
    destruct (seedPlayers_ids_NoDup (nextUid s) (shuffle rand 0 names))
      as [Hnd Hne]. fold seeded in Hnd, Hne.
    assert (Hlen' : length (p_id <$> seeded) = k * 4)
      by by rewrite length_fmap.
    rewrite (buildGroups_closed_form _ k seeded Hlen).
    rewrite length_fmap, length_seq.
    destruct (built_match_ids (nextUid s + length seeded) k (p_id <$> seeded))
      as [Hids Hun].
    unfold stateSound, tokensFresh, allMatches.
    cbn [target groups rounds players nextUid concat]. rewrite app_nil_r.
    split_and!.
    + done.
    + by apply built_names.
    + by apply built_shape.
    + by apply unplayed_valid.
    + rewrite Hids. apply NoDup_seq.
    + apply (Forall_fmap m_id (λ i, i < nextUid s + length seeded + 6 * k)).
      rewrite Hids. apply Forall_forall. intros i [_ Hi]%elem_of_seq. lia.
    + done.
    + right. by apply built_players.
  - case_bool_decide as Hg; [by eapply stateSound_same|].
    cbv zeta.
    set (seeded := seedPlayers (nextUid s) (shuffle rand 0 names)).
    destruct (seedPlayers_ids_NoDup (nextUid s) (shuffle rand 0 names))
      as [Hnd Hne]. fold seeded in Hnd, Hne.
    unfold buildSingleElimFirstRound.
    set (round := pairConsecutive _ _).
    destruct (tokens_extend [] round (nextUid s + length seeded))
      as [Hnd' Hlt]; [constructor | constructor | apply pairConsecutive_ids|].
    unfold stateSound, tokensFresh, allMatches.
    cbn [target groups rounds players nextUid concat fmap list_fmap].
    rewrite app_nil_r. cbn [app] in *.
    split_and!; [done | constructor | constructor | | done | done | done
                | by left].
    apply unplayed_valid, pairConsecutive_unplayed.
Qed.

Lemma tokensFresh_ids (s s' : AppState) :
  m_id <$> allMatches s' = m_id <$> allMatches s →
  nextUid s' = nextUid s →
  tokensFresh s → tokensFresh s'.
Proof.
  unfold tokensFresh. intros Hids Hn [Hnd Hlt]. rewrite Hn.
  split; [by rewrite Hids|].
  apply (Forall_fmap m_id (λ i, i < nextUid s)). rewrite Hids.
  by apply (Forall_fmap m_id (λ i, i < nextUid s)).
Qed.

(** With distinct group names and distinct match ids, a save made on a
    card of group [g] reaches no match but the one of the card, so the
    pairings of the groups stay. *)
Lemma group_save_participants (s : AppState) (g g' : Group) (m : Match)
    (sa sb : option Z) :
  NoDup (g_name <$> groups s) →
  NoDup (m_id <$> concat (g_matches <$> groups s)) →
  g ∈ groups s → m ∈ g_matches g →
  g' ∈ groups s → g_name g' = g_name g →
  participants <$> replaceMatch (savedMatch m sa sb) (g_matches g')
  = participants <$> g_matches g'.
Proof.
  intros Hnames Hids Hg Hm Hg' Hname.
  assert (g' = g) as -> by by eapply (NoDup_fmap_elem_inj g_name).
  apply replaceMatch_participants. intros m' Hm' Hid. cbn in Hid.
  assert (m' = m) as ->; [|done].
  eapply (NoDup_fmap_elem_inj m_id); [|done..].
  eapply NoDup_concat_elem; [exact Hids|]. by apply list_elem_of_fmap_2.
Qed.

Lemma stateSound_updateGroupMatch (s : AppState) (g : Group) (m : Match)
    (sa sb : option Z) :
  stateSound s → g ∈ groups s → m ∈ g_matches g →
  validateCornholeScore sa sb (target s) = None →
  stateSound (updateGroupMatch (g_name g) (savedMatch m sa sb) s).
Proof.
  intros (Ht & Hnames & Hshape & Hvalid & Hfresh & Hplayers & Hpart)
         Hg Hm Hok.
  destruct (updateGroupMatch_groups (g_name g) (savedMatch m sa sb) s)
    as (Hn' & Hp' & Hi').
  assert (Hids : NoDup (m_id <$> concat (g_matches <$> groups s))).
  { destruct Hfresh as [Hnd _]. unfold allMatches in Hnd.
    rewrite fmap_app in Hnd. by apply NoDup_app in Hnd as (? & _). }
  unfold stateSound. split_and!.
  - done.
  - by rewrite Hn'.
  - unfold updateGroupMatch; cbn [groups].
    apply Forall_fmap, Forall_forall. intros g' Hg'. unfold compose.
    rewrite Forall_forall in Hshape. specialize (Hshape g' Hg').
    case_bool_decide as Hname; [done|].
    destruct Hshape as (? & ? & ? & Hrr). unfold groupShape; cbn.
    split_and!; [done..|]. rewrite <- Hrr.
    by apply (group_save_participants s g g').
  - apply Forall_forall. intros m' Hm'. unfold allMatches in Hm'.
    rewrite Forall_forall in Hvalid.
    apply elem_of_app in Hm' as [Hm'|Hm'].
    + apply updateGroupMatch_elem in Hm' as [Hm'| ->].
      * apply Hvalid. unfold allMatches. apply elem_of_app. by left.
      * by eapply savedMatch_valid.
    + apply Hvalid. unfold allMatches. apply elem_of_app. by right.
  - apply (tokensFresh_ids s); [|reflexivity|exact Hfresh].
    unfold allMatches. by rewrite !fmap_app, Hi'.
  - done.
  - right. rewrite Hp'. destruct Hpart as [Hnil|]; [|done].
    rewrite Hnil in Hg. by apply elem_of_nil in Hg.
Qed.

Lemma tokens_same (old old' : list Match) (n : nat) :
  m_id <$> old' = m_id <$> old →
  NoDup (m_id <$> old) ∧ Forall (λ m, m_id m < n) old →
  NoDup (m_id <$> old') ∧ Forall (λ m, m_id m < n) old'.
Proof.
  intros Hids [Hnd Hlt]. split; [by rewrite Hids|].
  apply (Forall_fmap m_id (λ i, i < n)). rewrite Hids.
  by apply (Forall_fmap m_id (λ i, i < n)).
Qed.

Section SoundStates.

Variable localeCompare : string → string → Z.

Lemma buildKnockout_ids (fresh : nat) (gs : list Group)
    (idx : gmap string Player) (pairings : list Match) :
  buildKnockout localeCompare fresh gs idx = Some pairings →
  m_id <$> pairings = seq fresh (length pairings) ∧
  Forall unplayed pairings.
Proof.
  unfold buildKnockout. intros Hb.
  destruct (collectAdvancers _ _ _ _) as [adv|]; [|done]. cbn in Hb.
  by eapply pairGroups_ids.
Qed.

Lemma stateSound_advanceToKnockout (s s' : AppState) :
  stateSound s → advanceToKnockout localeCompare s = Some s' →
  stateSound s'.
Proof.
  intros Hs. unfold advanceToKnockout.
  destruct (buildKnockout _ _ _ _) as [pairings|] eqn:Hb; [|done]. cbn.
  case_bool_decide; intros [= <-]; [done|].
  apply buildKnockout_ids in Hb as [Hids Hun].
  destruct Hs as (Ht & Hnames & Hshape & Hvalid & [Hnd Hlt] & Hplayers & Hpart).
  unfold allMatches in Hvalid, Hnd, Hlt.
  rewrite fmap_app in Hnd. apply NoDup_app in Hnd as (Hnd & _).
  apply Forall_app in Hlt as [Hlt _]. apply Forall_app in Hvalid as [Hvalid _].
  destruct (tokens_extend _ pairings _ Hnd Hlt Hids) as [Hnd' Hlt'].
  unfold stateSound, tokensFresh, allMatches.
  cbn [target groups rounds players nextUid concat]. rewrite app_nil_r.
  split_and!; [done.. | | done | done | done | done].
  apply Forall_app. split; [done | by apply unplayed_valid].
Qed.

Lemma stateSound_submitKnockoutScore (s s' : AppState) (ri : nat)
    (r : list Match) (m : Match) (sa sb : option Z) :
  stateSound s → rounds s !! ri = Some r → m ∈ r →
  validateCornholeScore sa sb (target s) = None →
  submitKnockoutScore ri (savedMatch m sa sb) s = Some s' →
  stateSound s'.
Proof.
  intros (Ht & Hnames & Hshape & Hvalid & Hfresh & Hplayers & Hpart)
         Hr Hm Hok.
  unfold submitKnockoutScore.
  set (next := updateRounds ri (savedMatch m sa sb) (rounds s)).
  assert (Hvalid' : Forall matchValid
                      (concat (g_matches <$> groups s) ++ concat next)).
  { unfold allMatches in Hvalid.
    apply Forall_app in Hvalid as [Hg Hrs]. apply Forall_app. split; [done|].
    apply Forall_forall. intros m' [Hm'| ->]%updateRounds_elem.
    - rewrite Forall_forall in Hrs. by apply Hrs.
    - by eapply savedMatch_valid. }
  assert (Hfresh' : NoDup (m_id <$> concat (g_matches <$> groups s) ++ concat next)
                    ∧ Forall (λ m, m_id m < nextUid s)
                        (concat (g_matches <$> groups s) ++ concat next)).
  { apply (tokens_same (allMatches s)); [|done].
    unfold allMatches, next. by rewrite !fmap_app, updateRounds_ids. }
  destruct (next !! ri) as [r'|]; [|done]. cbn.
  destruct (allCompleted r'); [case_bool_decide|]; intros [= <-].
  - by unfold stateSound, tokensFresh, allMatches.
  - set (new := pairConsecutive (nextUid s) (winnerOf <$> r')).
    destruct Hfresh' as [Hnd Hlt].
    destruct (tokens_extend _ new _ Hnd Hlt) as [Hnd' Hlt'];
      [apply pairConsecutive_ids|].
    unfold stateSound, tokensFresh, allMatches.
    cbn [target groups rounds players nextUid].
    rewrite concat_app. cbn [concat]. rewrite app_nil_r, app_assoc.
    split_and!; [done.. | | done | done | done | done].
    apply Forall_app. split; [done|].
    apply unplayed_valid, pairConsecutive_unplayed.
  - by unfold stateSound, tokensFresh, allMatches.
Qed.

(** Every state of the application is sound. *)
Lemma reachable_stateSound (s : AppState) :
  reachable localeCompare s → stateSound s.
Proof.
  apply reachable_invariant.
  - apply stateSound_initial.
  - intros. by apply stateSound_setTarget.
  - intros. by apply stateSound_handleSetup.
  - intros. by apply stateSound_updateGroupMatch.
  - intros s0 s1 Hs _ Hadv. by eapply stateSound_advanceToKnockout.
  - intros. by eapply stateSound_submitKnockoutScore.
  - intros s0 st skin. by apply stateSound_same.
  - apply stateSound_resetAll.
Qed.

End SoundStates.

(** ** Results on record *)

(** X12: in every state the application reaches, the target is 11 or
    21, and every completed match, of a group or of the knockout,
    carries a result the validator accepts for one of these two
    targets: both scores present, the higher one exactly the target
    and the lower one below it. *)
Theorem reachable_results_valid (lc : string → string → Z) (s : AppState) :
  reachable lc s →
  (target s = 11 ∨ target s = 21)%Z ∧
  ∀ m, m ∈ allMatches s → is_completed m = true →
       ∃ x y t, scoreA m = Some x ∧ scoreB m = Some y ∧
                (t = 11 ∨ t = 21)%Z ∧
                Z.max x y = t ∧ (Z.min x y < t)%Z.
Proof.
  intros (Ht & _ & _ & Hvalid & _)%reachable_stateSound.
  split; [done|]. intros m Hm Hdone.
  rewrite Forall_forall in Hvalid.
  destruct (Hvalid m Hm Hdone) as [[_ Hok]|[_ Hok]];
    apply validate_null_scores in Hok as (x & y & ? & ? & _ & ? & ?);
    exists x, y; [exists 11%Z | exists 21%Z]; auto 10.
Qed.

Lemma reachable_results_valid_witness :
  ∃ s, run byteCompare initialState semifinalsPlayed = Some s ∧
       (target s = 11 ∨ target s = 21)%Z ∧
       ∀ m, m ∈ allMatches s → is_completed m = true →
            ∃ x y t, scoreA m = Some x ∧ scoreB m = Some y ∧
                     (t = 11 ∨ t = 21)%Z ∧
                     Z.max x y = t ∧ (Z.min x y < t)%Z.
Proof.
  eexists. split; [vm_compute; reflexivity|].
  apply (reachable_results_valid byteCompare).
  eapply (run_reachable byteCompare initialState _ semifinalsPlayed);
    [constructor | vm_compute; reflexivity].
Defined.

(** ** Submitting a knockout score *)

(** X13: [submitKnockoutScore] raises (the [TypeError] of
    [next[roundIndex].every]) exactly when there is no round at the
    given index. *)
Theorem submitKnockoutScore_raises (ri : nat) (mws : Match) (s : AppState) :
  submitKnockoutScore ri mws s = None ↔ length (rounds s) ≤ ri.
Proof.
  unfold submitKnockoutScore.
  destruct (updateRounds ri mws (rounds s) !! ri) as [r|] eqn:Hr; cbn.
  - apply lookup_lt_Some in Hr. rewrite updateRounds_length in Hr.
    split; [|lia].
    by destruct (allCompleted r); [case_bool_decide|].
  - apply lookup_ge_None in Hr. by rewrite updateRounds_length in Hr.
Qed.

(** X14: when the last round is a single match, the final, saving a
    score on it ends the tournament: the stage becomes [champion], the
    champion is the side with the higher score, no round is added, and
    the podium computed from the new state has that champion as gold
    and the other side of the final as silver. *)
Theorem final_podium (s : AppState) (ri : nat) (m : Match)
    (sa sb : option Z) :
  rounds s !! ri = Some [m] → S ri = length (rounds s) →
  let final := savedMatch m sa sb in
  ∃ s', submitKnockoutScore ri final s = Some s' ∧
        stage s' = StChampion ∧
        champion s' = PlaceOf (winnerOf final) ∧
        rounds s' = <[ri := [final]]> (rounds s) ∧
        gold (getPodium (rounds s') (champion s')) = PlaceOf (winnerOf final) ∧
        silver (getPodium (rounds s') (champion s')) = PlaceOf (loserOf final).
Proof.
  intros Hr Hlast final.
  assert (Hnext : updateRounds ri final (rounds s) = <[ri := [final]]> (rounds s)).
  { apply list_eq. intros k. rewrite updateRounds_lookup.
    destruct (decide (k = ri)) as [->|Hne].
    - rewrite list_lookup_insert_eq by lia. rewrite Hr. cbn.
      rewrite !bool_decide_true by done. done.
    - rewrite list_lookup_insert_ne by done.
      destruct (rounds s !! k); [|done]. cbn.
      by rewrite bool_decide_false. }
  unfold submitKnockoutScore. rewrite Hnext.
  rewrite list_lookup_insert_eq by lia. cbn.
  eexists. split; [reflexivity|]. cbn.
  split_and!; [done..| |].
  - destruct (<[ri:=[final]]> (rounds s)); done.
  - unfold getPodium.
    destruct (<[ri:=[final]]> (rounds s)) as [|r0 rs] eqn:Hins.
    { apply (f_equal length) in Hins. rewrite length_insert in Hins.
      cbn in Hins. lia. }
    rewrite <- Hins. cbn [silver].
    replace (length (<[ri:=[final]]> (rounds s)) - 1) with ri
      by (rewrite length_insert; lia).
    rewrite list_lookup_insert_eq by lia. cbn.
    unfold winnerOf, loserOf. destruct (scoreA_gt_scoreB final) eqn:Hgt.
    + by rewrite bool_decide_true.
    + change (m_b final) with (m_b m). change (m_a final) with (m_a m).
      case_bool_decide as Hab; [by injection Hab as ->|].
      by rewrite bool_decide_true.
Qed.

Lemma final_podium_witness :
  let m := freshMatch 7 (Some "p") (Some "q") in
  let s := mkApp [] [] ModeSingle StKnockout [[m]] PlaceNull 21 false 8 in
  ∃ s', submitKnockoutScore 0 (savedMatch m (Some 21%Z) (Some 5%Z)) s
          = Some s' ∧
        stage s' = StChampion ∧
        gold (getPodium (rounds s') (champion s')) = PlaceOf (Some "p") ∧
        silver (getPodium (rounds s') (champion s')) = PlaceOf (Some "q").
Proof.
  intros m s.
  destruct (final_podium s 0 m (Some 21%Z) (Some 5%Z))
    as (s' & Hs' & Hstage & _ & _ & Hgold & Hsilver);
    [reflexivity | reflexivity |].
  exists s'. by split_and!.
Defined.
